(** * Agency-name reconciliation of [import_product_authorizations.py]

    A shallow embedding of the importer of FedRAMP product authorizations
    (src/backend/import_product_authorizations.py): the normalisation of
    agency names, the index of federal organizations, the matcher, the
    loop of [main] that deduplicates and classifies the rows of the
    marketplace file, the summary it prints and the replacement of the
    [product_authorizations] table.

    Python values are modelled as follows.
    - [str]: [string], read as a sequence of code points below 256;
      [str.lower] and [str.strip] are written out for that range.
    - a value that may be [None]: [option]; truthiness ([if x:]) is spelled
      out per type ([str_truthy], [opt_str_truthy], [int_truthy]).
    - [int]: [Z] for identifiers, [nat] for the counters, which only count up.
    - [dict]: [gmap]; [set]: [gset]; [list]: [list]. *)

From stdpp Require Import gmap strings list fin_maps pretty.
From Stdlib Require Import Ascii QArith.
Local Open Scope string_scope.
Local Open Scope Z_scope.
Local Open Scope list_scope.

(** ** Strings *)

Module PyStr.

(** Code point of a character. *)
Definition ord (c : ascii) : N := N_of_ascii c.

(** [str.lower] on one character: [A-Z] and the upper-case letters of
    Latin-1 (U+00C0..U+00DE except the multiplication sign U+00D7) move up
    by 32; every other code point below 256 is its own lower case. *)
Definition lower_char (c : ascii) : ascii :=
  let n := ord c in
  if ((65 <=? n) && (n <=? 90))%N
     || ((192 <=? n) && (n <=? 222) && negb (n =? 215))%N
  then ascii_of_N (n + 32) else c.

Fixpoint lower (s : string) : string :=
  match s with
  | EmptyString => EmptyString
  | String c s' => String (lower_char c) (lower s')
  end.

(** Whitespace as [str.strip] sees it (code points below 256): TAB, LF, VT,
    FF, CR, the separators U+001C..U+001F, SPACE, NEL and NBSP. *)
Definition isspace (c : ascii) : bool :=
  let n := ord c in
  (((9 <=? n) && (n <=? 13)) || ((28 <=? n) && (n <=? 32))
   || (n =? 133) || (n =? 160))%N.

Fixpoint lstrip (s : string) : string :=
  match s with
  | EmptyString => EmptyString
  | String c s' => if isspace c then lstrip s' else s
  end.

Fixpoint rstrip (s : string) : string :=
  match s with
  | EmptyString => EmptyString
  | String c s' =>
      match rstrip s' with
      | EmptyString => if isspace c then EmptyString else String c EmptyString
      | t => String c t
      end
  end.

(** [s.strip()] *)
Definition strip (s : string) : string := rstrip (lstrip s).

(** [s.startswith(p)] *)
Definition startswith (s p : string) : bool := String.prefix p s.

(** [s[n:]] *)
Fixpoint drop (n : nat) (s : string) : string :=
  match n, s with
  | O, _ => s
  | S _, EmptyString => EmptyString
  | S n', String _ s' => drop n' s'
  end.

End PyStr.

(** Truthiness of a [str]: every string but the empty one. *)
Definition str_truthy (s : string) : bool :=
  match s with EmptyString => false | String _ _ => true end.

(** Truthiness of a value that is a [str] or [None]. *)
Definition opt_str_truthy (o : option string) : bool :=
  match o with Some s => str_truthy s | None => false end.

(** Truthiness of a value that is an [int] or [None]: [None] and [0] are
    falsy. *)
Definition int_truthy (o : option Z) : bool :=
  match o with Some n => negb (n =? 0) | None => false end.

(** [x if x else None] *)
Definition or_None (s : string) : option string :=
  if str_truthy s then Some s else None.

(** ** normalize_name (lines 26-30) *)

Definition normalize_name (name : option string) : string :=
  match name with
  | None => ""
  | Some s => if negb (str_truthy s) then "" else PyStr.strip (PyStr.lower s)
  end.

(** ** The organization index (lines 32-54) *)

(** A row of the table [federal_organizations]. [level] and [parent_id] are
    selected but never read by the importer. *)
Record federal_organization := {
  org_id : Z;
  name : option string;
  short_name : option string;
  abbreviation : option string;
  level : Z;
  parent_id : option Z;
  is_active : bool
}.

(** A record of the list [authorizations], also a row of the table
    [product_authorizations]. *)
Record authorization := {
  fedramp_id : string;
  organization_id : option Z;
  parent_agency_name : string;
  sub_agency_name : option string;
  ato_issuance_date : option string;
  ato_expiration_date : option string
}.

(** The database behind [conn]: the two tables the importer touches. *)
Record conn := {
  federal_organizations : list federal_organization;
  product_authorizations : list authorization
}.

(** [SELECT ... FROM federal_organizations WHERE is_active = true], rows in
    the order of the stored table. *)
Definition fetchall (c : conn) : list federal_organization :=
  filter (λ o, is_active o = true) (federal_organizations c).

(** Body of the loop of lines 42-51 for one fetched row. *)
Definition index_row (orgs : gmap string Z) (row : federal_organization)
  : gmap string Z :=
  let key := normalize_name (name row) in
  let orgs := <[key := org_id row]> orgs in
  let orgs :=
    if opt_str_truthy (short_name row)
    then <[normalize_name (short_name row) := org_id row]> orgs else orgs in
  if opt_str_truthy (abbreviation row)
  then <[normalize_name (abbreviation row) := org_id row]> orgs else orgs.

Definition get_federal_organizations (c : conn) : gmap string Z :=
  fold_left index_row (fetchall c) ∅.

(** ** match_agency_to_org (lines 56-87) *)

Definition prefixes : list string := ["Department of "; "Department of the "].

(** The loop of lines 81-85: the first prefix of the list that
    [parent_agency] starts with and whose remainder is a key decides. *)
Fixpoint try_prefixes (ps : list string) (parent_agency : string)
  (orgs : gmap string Z) : option Z :=
  match ps with
  | [] => None
  | prefix :: ps' =>
      if PyStr.startswith parent_agency prefix then
        let short := PyStr.drop (String.length prefix) parent_agency in
        match orgs !! normalize_name (Some short) with
        | Some i => Some i
        | None => try_prefixes ps' parent_agency orgs
        end
      else try_prefixes ps' parent_agency orgs
  end.

Definition match_agency_to_org (parent_agency sub_agency : string)
  (orgs : gmap string Z) : option Z :=
  if String.eqb parent_agency "Legacy JAB Authorization" then None
  else if String.eqb parent_agency
            "Federal Risk and Authorization Management Program" then None
  else
    match (if str_truthy sub_agency
           then orgs !! normalize_name (Some sub_agency) else None) with
    | Some i => Some i
    | None =>
        match (if str_truthy parent_agency
               then orgs !! normalize_name (Some parent_agency) else None) with
        | Some i => Some i
        | None =>
            if str_truthy parent_agency
            then try_prefixes prefixes parent_agency orgs
            else None
        end
    end.

(** ** The reconciliation loop of [main] (lines 124-173) *)

(** The dict [stats] of lines 126-132, one field per key. *)
Record stats_dict := {
  total : nat;
  matched : nat;
  unmatched : nat;
  skipped : nat;
  duplicates : nat
}.

Inductive stats_key := Total | Matched | Unmatched | Skipped | Duplicates.

(** [stats[k] += 1] *)
Definition incr (k : stats_key) (s : stats_dict) : stats_dict :=
  match k with
  | Total => {| total := S (total s); matched := matched s;
                unmatched := unmatched s; skipped := skipped s;
                duplicates := duplicates s |}
  | Matched => {| total := total s; matched := S (matched s);
                  unmatched := unmatched s; skipped := skipped s;
                  duplicates := duplicates s |}
  | Unmatched => {| total := total s; matched := matched s;
                    unmatched := S (unmatched s); skipped := skipped s;
                    duplicates := duplicates s |}
  | Skipped => {| total := total s; matched := matched s;
                  unmatched := unmatched s; skipped := S (skipped s);
                  duplicates := duplicates s |}
  | Duplicates => {| total := total s; matched := matched s;
                     unmatched := unmatched s; skipped := skipped s;
                     duplicates := S (duplicates s) |}
  end.

(** The variables the loop updates. [matcher_calls] is a ghost trace, absent
    from the source: it records the arguments of every call of
    [match_agency_to_org] made at line 157, in order. *)
Record pass_state := {
  seen : gset (string * string * string);
  authorizations : list authorization;
  stats : stats_dict;
  unmatched_agencies : gmap string nat;
  matcher_calls : list (string * string)
}.

(** Lines 124-134. *)
Definition init_state : pass_state := {|
  seen := ∅;
  authorizations := [];
  stats := {| total := 0; matched := 0; unmatched := 0; skipped := 0;
              duplicates := 0 |};
  unmatched_agencies := ∅;
  matcher_calls := []
|}.

Definition stats_incr (k : stats_key) (st : pass_state) : pass_state :=
  {| seen := seen st; authorizations := authorizations st;
     stats := incr k (stats st);
     unmatched_agencies := unmatched_agencies st;
     matcher_calls := matcher_calls st |}.

(** [seen.add(k)] *)
Definition seen_add (k : string * string * string) (st : pass_state)
  : pass_state :=
  {| seen := {[ k ]} ∪ seen st; authorizations := authorizations st;
     stats := stats st; unmatched_agencies := unmatched_agencies st;
     matcher_calls := matcher_calls st |}.

(** [unmatched_agencies[key] += 1] on a [defaultdict(int)] *)
Definition unmatched_agencies_incr (key : string) (st : pass_state)
  : pass_state :=
  {| seen := seen st; authorizations := authorizations st; stats := stats st;
     unmatched_agencies :=
       <[key := S (default 0%nat (unmatched_agencies st !! key))]>
         (unmatched_agencies st);
     matcher_calls := matcher_calls st |}.

(** [authorizations.append(a)] *)
Definition authorizations_append (a : authorization) (st : pass_state)
  : pass_state :=
  {| seen := seen st; authorizations := authorizations st ++ [a];
     stats := stats st; unmatched_agencies := unmatched_agencies st;
     matcher_calls := matcher_calls st |}.

Definition log_call (args : string * string) (st : pass_state) : pass_state :=
  {| seen := seen st; authorizations := authorizations st; stats := stats st;
     unmatched_agencies := unmatched_agencies st;
     matcher_calls := matcher_calls st ++ [args] |}.

(** [row.get(column, '')] on a row of [csv.DictReader] whose cells are all
    strings (a line with at least as many cells as the header). *)
Definition row_get (row : gmap string string) (column dflt : string) : string :=
  default dflt (row !! column).

(** Body of the loop of lines 136-173 for one row. *)
Definition process_row (orgs : gmap string Z) (st : pass_state)
  (row : gmap string string) : pass_state :=
  let st := stats_incr Total st in
  let fedramp_id := PyStr.strip (row_get row "FedRAMP ID" "") in
  let parent_agency := PyStr.strip (row_get row "Parent Agency" "") in
  let sub_agency := PyStr.strip (row_get row "Sub Agency" "") in
  let ato_issuance := PyStr.strip (row_get row "ATO Issuance Date" "") in
  let ato_expiration := PyStr.strip (row_get row "ATO Expiration Date" "") in
  if negb (str_truthy fedramp_id) || negb (str_truthy parent_agency) then
    stats_incr Skipped st
  else
    let dedup_key :=
      (fedramp_id, parent_agency,
       if str_truthy sub_agency then sub_agency else "") in
    if decide (dedup_key ∈ seen st) then
      stats_incr Duplicates st
    else
      let st := seen_add dedup_key st in
      let org_id := match_agency_to_org parent_agency sub_agency orgs in
      let st := log_call (parent_agency, sub_agency) st in
      let st :=
        if int_truthy org_id then stats_incr Matched st
        else
          let st := stats_incr Unmatched st in
          let key := if str_truthy sub_agency then sub_agency
                     else parent_agency in
          unmatched_agencies_incr key st in
      authorizations_append
        {| fedramp_id := fedramp_id;
           organization_id := org_id;
           parent_agency_name := parent_agency;
           sub_agency_name := or_None sub_agency;
           ato_issuance_date := or_None ato_issuance;
           ato_expiration_date := or_None ato_expiration |} st.

(** The loop, from a given state. *)
Definition process_rows (orgs : gmap string Z) (st : pass_state)
  (rows : list (gmap string string)) : pass_state :=
  fold_left (process_row orgs) rows st.

(** Lines 124-173: the loop from the fresh state. *)
Definition reconciliation_pass (orgs : gmap string Z)
  (rows : list (gmap string string)) : pass_state :=
  process_rows orgs init_state rows.

(** ** The summary and the database write (lines 175-214) *)

Inductive exn := ZeroDivisionError.

(** [a / b] on integers: the exact quotient, or the exception. The rounding
    to a float and its formatting as [.1f] are not modelled. *)
Definition truediv (a b : nat) : exn + Q :=
  match b with
  | O => inl ZeroDivisionError
  | S _ => inr (Z.of_nat a # Pos.of_nat b)
  end.

(** What lines 175-182 print besides the counters themselves. *)
Record summary := {
  unique_count : nat;
  matched_percent : Q;
  unmatched_percent : Q
}.

Definition print_statistics (s : stats_dict) : exn + summary :=
  let unique_count := (matched s + unmatched s)%nat in
  match truediv (100 * matched s) unique_count with
  | inl e => inl e
  | inr pm =>
      match truediv (100 * unmatched s) unique_count with
      | inl e => inl e
      | inr pu => inr {| unique_count := unique_count;
                         matched_percent := pm; unmatched_percent := pu |}
      end
  end.

(** The key of the [ON CONFLICT] clause of line 201. *)
Definition conflict_key (a : authorization) : string * string * string :=
  (fedramp_id a, parent_agency_name a, default "" (sub_agency_name a)).

(** One row through [INSERT ... ON CONFLICT ... DO UPDATE SET ...]. *)
Fixpoint upsert (a : authorization) (table : list authorization)
  : list authorization :=
  match table with
  | [] => [a]
  | b :: table' =>
      if decide (conflict_key b = conflict_key a) then
        {| fedramp_id := fedramp_id b;
           organization_id := organization_id a;
           parent_agency_name := parent_agency_name b;
           sub_agency_name := sub_agency_name b;
           ato_issuance_date := ato_issuance_date a;
           ato_expiration_date := ato_expiration_date a |} :: table'
      else b :: upsert a table'
  end.

(** [execute_values(cursor, insert_sql, authorizations)] *)
Definition execute_values (table auths : list authorization)
  : list authorization :=
  fold_left (λ t a, upsert a t) auths table.

(** [main] from line 109 on: the outcome (the exception raised, or the final
    state of the loop with the summary printed) and the database left
    behind. *)
Definition main (c : conn) (rows : list (gmap string string))
  : (exn + pass_state * summary) * conn :=
  let orgs := get_federal_organizations c in
  let st := reconciliation_pass orgs rows in
  match print_statistics (stats st) with
  | inl e => (inl e, c)
  | inr sm =>
      (* TRUNCATE product_authorizations, then the insert and the commit *)
      let table := execute_values [] (authorizations st) in
      (inr (st, sm),
       {| federal_organizations := federal_organizations c;
          product_authorizations := table |})
  end.

(** ** The per-row state machine, read off the loop

    [pending -> skipped | duplicate | resolved(matched) | resolved(unmatched)].
    The definitions below name what the loop computes for one row, so that
    the properties of the pass can be stated row by row. *)

(** The three fields of a row the classification depends on, trimmed as in
    lines 139-141. *)
Definition row_fedramp_id (row : gmap string string) : string :=
  PyStr.strip (row_get row "FedRAMP ID" "").
Definition row_parent_agency (row : gmap string string) : string :=
  PyStr.strip (row_get row "Parent Agency" "").
Definition row_sub_agency (row : gmap string string) : string :=
  PyStr.strip (row_get row "Sub Agency" "").

(** The test of line 145. *)
Definition is_skipped (row : gmap string string) : bool :=
  negb (str_truthy (row_fedramp_id row))
  || negb (str_truthy (row_parent_agency row)).

(** The key of line 150. *)
Definition dedup_key (row : gmap string string) : string * string * string :=
  (row_fedramp_id row, row_parent_agency row,
   if str_truthy (row_sub_agency row) then row_sub_agency row else "").

(** The tuple of lines 166-173. *)
Definition authorization_of (orgs : gmap string Z)
  (row : gmap string string) : authorization :=
  {| fedramp_id := row_fedramp_id row;
     organization_id :=
       match_agency_to_org (row_parent_agency row) (row_sub_agency row) orgs;
     parent_agency_name := row_parent_agency row;
     sub_agency_name := or_None (row_sub_agency row);
     ato_issuance_date :=
       or_None (PyStr.strip (row_get row "ATO Issuance Date" ""));
     ato_expiration_date :=
       or_None (PyStr.strip (row_get row "ATO Expiration Date" "")) |}.

(** The key of line 163. *)
Definition unmatched_label (row : gmap string string) : string :=
  if str_truthy (row_sub_agency row) then row_sub_agency row
  else row_parent_agency row.

(** [r'] is an earlier, non-skipped row with the natural key of [r]. *)
Definition occurrence_of (r r' : gmap string string) : Prop :=
  is_skipped r' = false ∧ dedup_key r' = dedup_key r.

(** [r], met after the rows [pre], is retained: not skipped and the first
    non-skipped row with its natural key. *)
Definition is_retained (pre : list (gmap string string))
  (r : gmap string string) : Prop :=
  is_skipped r = false ∧ ¬ Exists (occurrence_of r) pre.

Global Instance occurrence_of_dec r r' : Decision (occurrence_of r r').
Proof. unfold occurrence_of. apply _. Defined.

Global Instance is_retained_dec pre r : Decision (is_retained pre r).
Proof. unfold is_retained. apply _. Defined.

(** The rows of [rows] that are retained, [pre] being the rows read before. *)
Fixpoint retained_after (pre rows : list (gmap string string))
  : list (gmap string string) :=
  match rows with
  | [] => []
  | r :: rows' =>
      if decide (is_retained pre r)
      then r :: retained_after (pre ++ [r]) rows'
      else retained_after (pre ++ [r]) rows'
  end.

Definition retained (rows : list (gmap string string))
  : list (gmap string string) := retained_after [] rows.

(** The keys of the non-skipped rows of a prefix. *)
Definition keys_of (rows : list (gmap string string))
  : gset (string * string * string) :=
  list_to_set (dedup_key <$> filter (λ r, is_skipped r = false) rows).

(** The four effects a row can have on the state, after the increment of
    [total] that every row gets. *)
Definition skip_effect (st : pass_state) : pass_state :=
  stats_incr Skipped (stats_incr Total st).

Definition duplicate_effect (st : pass_state) : pass_state :=
  stats_incr Duplicates (stats_incr Total st).

Definition matched_effect (orgs : gmap string Z) (row : gmap string string)
  (st : pass_state) : pass_state :=
  authorizations_append (authorization_of orgs row)
    (stats_incr Matched
       (log_call (row_parent_agency row, row_sub_agency row)
          (seen_add (dedup_key row) (stats_incr Total st)))).

Definition unmatched_effect (orgs : gmap string Z) (row : gmap string string)
  (st : pass_state) : pass_state :=
  authorizations_append (authorization_of orgs row)
    (unmatched_agencies_incr (unmatched_label row)
       (stats_incr Unmatched
          (log_call (row_parent_agency row, row_sub_agency row)
             (seen_add (dedup_key row) (stats_incr Total st))))).

(** The transitions of the state machine, as a relation between the state
    before a row and the state after it. *)
Inductive row_step (orgs : gmap string Z) (st : pass_state)
  (row : gmap string string) : pass_state → Prop :=
  | step_skipped :
      is_skipped row = true →
      row_step orgs st row (skip_effect st)
  | step_duplicate :
      is_skipped row = false →
      dedup_key row ∈ seen st →
      row_step orgs st row (duplicate_effect st)
  | step_matched :
      is_skipped row = false →
      dedup_key row ∉ seen st →
      int_truthy (match_agency_to_org (row_parent_agency row)
                    (row_sub_agency row) orgs) = true →
      row_step orgs st row (matched_effect orgs row st)
  | step_unmatched :
      is_skipped row = false →
      dedup_key row ∉ seen st →
      int_truthy (match_agency_to_org (row_parent_agency row)
                    (row_sub_agency row) orgs) = false →
      row_step orgs st row (unmatched_effect orgs row st).

(** A run of the pass over a list of rows. *)
Inductive run (orgs : gmap string Z)
  : pass_state → list (gmap string string) → pass_state → Prop :=
  | run_nil st : run orgs st [] st
  | run_cons st row st' rows st'' :
      row_step orgs st row st' →
      run orgs st' rows st'' →
      run orgs st (row :: rows) st''.

(** ** The precedence of the matcher, in the words of the specification *)

Definition sentinel_jab : string := "Legacy JAB Authorization".
Definition sentinel_pmo : string :=
  "Federal Risk and Authorization Management Program".

(** The identifier registered for the normalisation of [s], if any. *)
Definition alias_lookup (orgs : gmap string Z) (s : string) : option Z :=
  orgs !! normalize_name (Some s).

(** The remainder of [parent_agency] after [prefix], looked up, when
    [parent_agency] starts with [prefix]. *)
Definition stripped_lookup (orgs : gmap string Z) (prefix parent_agency : string)
  : option Z :=
  if PyStr.startswith parent_agency prefix
  then alias_lookup orgs (PyStr.drop (String.length prefix) parent_agency)
  else None.

(** First hit wins. *)
Definition or_else (a b : option Z) : option Z :=
  match a with Some i => Some i | None => b end.

(** The precedence as it is stated for a parent agency that is no sentinel:
    the sub-agency when it is non-empty, then the parent agency, then the
    parent agency without either prefix. *)
Definition stated_precedence (parent_agency sub_agency : string)
  (orgs : gmap string Z) : option Z :=
  or_else (if decide (sub_agency ≠ "") then alias_lookup orgs sub_agency
           else None)
    (or_else (alias_lookup orgs parent_agency)
       (or_else (stripped_lookup orgs "Department of " parent_agency)
          (stripped_lookup orgs "Department of the " parent_agency))).

(** The same precedence, the parent agency being looked up only when it is
    non-empty. *)
Definition guarded_precedence (parent_agency sub_agency : string)
  (orgs : gmap string Z) : option Z :=
  or_else (if decide (sub_agency ≠ "") then alias_lookup orgs sub_agency
           else None)
    (or_else (if decide (parent_agency ≠ "")
              then alias_lookup orgs parent_agency else None)
       (or_else (stripped_lookup orgs "Department of " parent_agency)
          (stripped_lookup orgs "Department of the " parent_agency))).

(** The aliases one fetched organization registers (lines 45-51). *)
Definition aliases (o : federal_organization) : list string :=
  normalize_name (name o)
  :: (if opt_str_truthy (short_name o) then [normalize_name (short_name o)]
      else [])
  ++ (if opt_str_truthy (abbreviation o) then [normalize_name (abbreviation o)]
      else []).

(** ** Quantities read off the final state *)

(** [sum(unmatched_agencies.values())] *)
Definition occurrences (m : gmap string nat) : nat :=
  map_fold (λ _ n acc, (n + acc)%nat) 0%nat m.

(** The emitted records whose organization reference is truthy, and the
    others. *)
Definition resolved_records (l : list authorization) : list authorization :=
  filter (λ a, int_truthy (organization_id a) = true) l.
Definition unresolved_records (l : list authorization) : list authorization :=
  filter (λ a, int_truthy (organization_id a) = false) l.

(** A string starts with no blank: it is empty or its first character is
    not whitespace. *)
Definition no_leading_space (s : string) : Prop :=
  match s with
  | EmptyString => True
  | String c _ => PyStr.isspace c = false
  end.

(** The matcher returns a truthy identifier for the agencies of the key
    [k]. *)
Definition key_resolves (orgs : gmap string Z)
  (k : string * string * string) : Prop :=
  int_truthy (match_agency_to_org k.1.2 k.2 orgs) = true.

Global Instance key_resolves_dec orgs k : Decision (key_resolves orgs k).
Proof. unfold key_resolves. apply _. Defined.

(** * The helpers of the two loaders

    The pure functions of src/backend/load_agency_ai_tools.py and of
    src/backend/load_use_case_inventory.py. A cell that may be missing is an
    [option string], as the functions are annotated. *)

(** ** Further string operations *)

Module PyStr2.

(** [needle in hay] on strings. *)
Fixpoint contains (needle hay : string) : bool :=
  String.prefix needle hay
  || match hay with
     | EmptyString => false
     | String _ hay' => contains needle hay'
     end.

(** [s.replace(a, b)] for single characters [a] and [b]. *)
Fixpoint replace_char (a b : ascii) (s : string) : string :=
  match s with
  | EmptyString => EmptyString
  | String c s' =>
      String (if Ascii.eqb c a then b else c) (replace_char a b s')
  end.

(** [s.lstrip(chars)], [s.rstrip(chars)] and [s.strip(chars)], the set
    [chars] given by its membership test. *)
Fixpoint lstrip_set (chars : ascii → bool) (s : string) : string :=
  match s with
  | EmptyString => EmptyString
  | String c s' => if chars c then lstrip_set chars s' else s
  end.

Fixpoint rstrip_set (chars : ascii → bool) (s : string) : string :=
  match s with
  | EmptyString => EmptyString
  | String c s' =>
      match rstrip_set chars s' with
      | EmptyString => if chars c then EmptyString else String c EmptyString
      | t => String c t
      end
  end.

Definition strip_set (chars : ascii → bool) (s : string) : string :=
  rstrip_set chars (lstrip_set chars s).

(** [s[:n]] *)
Fixpoint take (n : nat) (s : string) : string :=
  match n, s with
  | O, _ => EmptyString
  | S _, EmptyString => EmptyString
  | S n', String c s' => String c (take n' s')
  end.

End PyStr2.

(** ** Regular expressions over character classes *)

Module Re.

(** [\w] of a [str] pattern, for code points below 256: the letters and
    the decimal, digit and numeric characters, and the underscore. *)
Definition word (c : ascii) : bool :=
  let n := PyStr.ord c in
  (((48 <=? n) && (n <=? 57)) || ((65 <=? n) && (n <=? 90)) || (n =? 95)
   || ((97 <=? n) && (n <=? 122)) || (n =? 170)
   || ((178 <=? n) && (n <=? 179)) || (n =? 181)
   || ((185 <=? n) && (n <=? 186)) || ((188 <=? n) && (n <=? 190))
   || ((192 <=? n) && (n <=? 214)) || ((216 <=? n) && (n <=? 246))
   || ((248 <=? n) && (n <=? 255)))%N.

(** [\s] *)
Definition space (c : ascii) : bool := PyStr.isspace c.

Definition hyphen (c : ascii) : bool := (PyStr.ord c =? 45)%N.
Definition underscore (c : ascii) : bool := (PyStr.ord c =? 95)%N.

(** [re.sub('[^...]', '', s)]: the characters of the class are kept, the
    others dropped. *)
Fixpoint keep (cls : ascii → bool) (s : string) : string :=
  match s with
  | EmptyString => EmptyString
  | String c s' => if cls c then String c (keep cls s') else keep cls s'
  end.

(** [re.sub('[...]+', '-', s)]: every maximal run of characters of the class
    becomes one hyphen. [in_run] tells that the previous character was of
    the class. *)
Fixpoint sub_runs (cls : ascii → bool) (in_run : bool) (s : string) : string :=
  match s with
  | EmptyString => EmptyString
  | String c s' =>
      if cls c then
        if in_run then sub_runs cls true s'
        else String "-" (sub_runs cls true s')
      else String c (sub_runs cls false s')
  end.

End Re.

(** ** load_agency_ai_tools.py *)

Module AgencyTools.

(** slugify (lines 25-33) *)
Definition slugify (text : string) : string :=
  if negb (str_truthy text) then ""
  else
    let text := PyStr.lower text in
    let text :=
      Re.keep (λ c, Re.word c || Re.space c || Re.hyphen c) text in
    let text :=
      Re.sub_runs (λ c, Re.space c || Re.underscore c || Re.hyphen c)
        false text in
    PyStr2.strip_set Re.hyphen text.

(** map_deployment_status (lines 36-46) *)
Definition map_deployment_status (status : option string) : string :=
  match status with
  | None => "no_public_internal_assistant"
  | Some status =>
      if negb (str_truthy status) then "no_public_internal_assistant"
      else
        let status_lower := PyStr.lower status in
        if PyStr2.contains "all_staff" status_lower
           || String.eqb status_lower "all_staff"
        then "all_staff"
        else if PyStr2.contains "pilot" status_lower
                || PyStr2.contains "limited" status_lower
        then "pilot_or_limited"
        else "no_public_internal_assistant"
  end.

Definition valid_types : list string :=
  ["staff_chatbot"; "coding_assistant"; "document_automation";
   "none_identified"].

(** map_product_type (lines 49-55) *)
Definition map_product_type (ptype : option string) : string :=
  match ptype with
  | None => "none_identified"
  | Some ptype =>
      if negb (str_truthy ptype) then "none_identified"
      else
        let ptype_lower := PyStr2.replace_char " " "_" (PyStr.lower ptype) in
        if bool_decide (ptype_lower ∈ valid_types) then ptype_lower
        else "none_identified"
  end.

(** map_availability (lines 58-69); [str(avail)] is [avail] itself on a
    string. *)
Definition map_availability (avail : option string) : option string :=
  match avail with
  | None => None
  | Some avail =>
      if negb (str_truthy avail) then None
      else
        let avail_lower := PyStr.lower avail in
        if bool_decide (avail_lower ∈ ["yes"; "true"; "1"]) then Some "yes"
        else if bool_decide (avail_lower ∈ ["no"; "false"; "0"])
        then Some "no"
        else if PyStr2.contains "subset" avail_lower then Some "subset"
        else Some avail_lower
  end.

(** map_pilot_flag (lines 72-77) *)
Definition map_pilot_flag (pilot : option string) : bool :=
  match pilot with
  | None => false
  | Some pilot =>
      if negb (str_truthy pilot) then false
      else
        let pilot_lower := PyStr.lower pilot in
        bool_decide (pilot_lower ∈ ["yes"; "true"; "1"; "pilot"; "limited"])
  end.

(** The candidates of the loop of lines 117-121: [base_slug] itself, then
    [f"{base_slug}-{counter}"]. *)
Definition numbered (base_slug : string) (counter : N) : string :=
  base_slug +:+ "-" +:+ pretty counter.

(** The loop [while slug in used_slugs] of lines 119-121, run for at most
    [fuel] tests of its condition; [None] when the fuel runs out. *)
Fixpoint probe (fuel : nat) (base_slug slug : string) (counter : N)
  (used_slugs : gset string) : option string :=
  match fuel with
  | O => None
  | S fuel' =>
      if decide (slug ∈ used_slugs)
      then probe fuel' base_slug (numbered base_slug counter) (counter + 1)
             used_slugs
      else Some slug
  end.

(** Lines 117-122: the slug given to a new agency and the set of used slugs
    after it. *)
Definition assign_slug (fuel : nat) (base_slug : string)
  (used_slugs : gset string) : option (string * gset string) :=
  match probe fuel base_slug base_slug 1 used_slugs with
  | Some slug => Some (slug, {[ slug ]} ∪ used_slugs)
  | None => None
  end.






(** Line 192: the slug of the [i]-th tool of an agency. *)
Definition tool_slug (agency_slug product_name : string) (i : N) : string :=
  slugify (agency_slug +:+ "-" +:+ product_name +:+ "-" +:+ pretty i).

End AgencyTools.

(** ** load_use_case_inventory.py *)

Module UseCases.

(** generate_slug (lines 174-193) *)
Definition generate_slug (use_case_name agency_abbr : option string)
  (row_id : N) : string :=
  let slug :=
    if opt_str_truthy use_case_name
    then PyStr.lower (default "" use_case_name)
    else "use-case-" +:+ pretty row_id in
  let slug := Re.keep (λ c, Re.word c || Re.space c || Re.hyphen c) slug in
  let slug := Re.sub_runs (λ c, Re.hyphen c || Re.space c) false slug in
  let slug := PyStr2.strip_set Re.hyphen (PyStr2.take 80 slug) in
  if opt_str_truthy agency_abbr then
    let agency_slug :=
      Re.keep Re.word (PyStr.lower (default "" agency_abbr)) in
    agency_slug +:+ "-" +:+ slug
  else slug.

(** The values [normalize_boolean] tells apart. *)
Inductive value :=
  | VNone
  | VBool (b : bool)
  | VInt (n : Z)
  | VStr (s : string).

(** normalize_boolean (lines 215-223) *)
Definition normalize_boolean (v : value) : Z :=
  match v with
  | VBool b => if b then 1 else 0
  | VStr s =>
      let val_lower := PyStr.strip (PyStr.lower s) in
      if bool_decide (val_lower ∈ ["true"; "t"; "yes"; "y"; "1"]) then 1
      else 0
  | _ => 0
  end.

End UseCases.

(** ** The shape of a slug *)

(** All characters of [s] pass the test [p]. *)
Fixpoint all_chars (p : ascii → bool) (s : string) : bool :=
  match s with
  | EmptyString => true
  | String c s' => p c && all_chars p s'
  end.

(** [s] is made of hyphens and of characters passing [ok], with no two
    hyphens in a row; [prev] tells that a hyphen may not come first. *)
Fixpoint no_double (ok : ascii → bool) (prev : bool) (s : string) : bool :=
  match s with
  | EmptyString => true
  | String c s' =>
      if Re.hyphen c then negb prev && no_double ok true s'
      else ok c && no_double ok false s'
  end.

(** The same, and [s] does not end with a hyphen, nor is it empty after
    one. *)
Fixpoint shaped_from (ok : ascii → bool) (prev : bool) (s : string) : bool :=
  match s with
  | EmptyString => negb prev
  | String c s' =>
      if Re.hyphen c then negb prev && shaped_from ok true s'
      else ok c && shaped_from ok false s'
  end.

(** A slug: empty, or words of [ok] characters joined by single hyphens. *)
Definition slug_shaped (ok : ascii → bool) (s : string) : bool :=
  match s with
  | EmptyString => true
  | _ => shaped_from ok true s
  end.

(** The characters of the words of [slugify]: word characters other than the
    underscore that lowering leaves alone. *)
Definition slug_char (c : ascii) : bool :=
  Re.word c && negb (Re.underscore c) && Ascii.eqb (PyStr.lower_char c) c.



(** The [i]-th slug the loop of lines 117-121 tries for [base_slug]. *)
Definition candidate (base_slug : string) (i : nat) : string :=
  match i with
  | O => base_slug
  | S _ => AgencyTools.numbered base_slug (N.of_nat i)
  end.

(** ** Data for the tests and the witnesses *)

(** The end-to-end scenario of the specification: its organizations and
    its rows. *)
Definition scenario_conn : conn :=
  {| federal_organizations :=
       [ {| org_id := 1; name := Some "Department of Example";
            short_name := None; abbreviation := Some "DOE2"; level := 1;
            parent_id := None; is_active := true |} ];
     product_authorizations := [] |}.

Definition mk_row (fid parent sub : string) : gmap string string :=
  {[ "FedRAMP ID" := fid; "Parent Agency" := parent; "Sub Agency" := sub;
     "ATO Issuance Date" := "2020-01-01"; "ATO Expiration Date" := "" ]}.

Definition scenario_rows : list (gmap string string) :=
  [ mk_row "F-001" "Department of Example" "";
    mk_row "F-001" "Department of Example" "";
    mk_row "F-002" "Unknown Dept" "Sub X" ].

(** Two active organizations that share an abbreviation up to case and
    surrounding blanks. *)
Definition collision_conn : conn :=
  {| federal_organizations :=
       [ {| org_id := 1; name := Some "General Services Administration";
            short_name := None; abbreviation := Some "GSA"; level := 1;
            parent_id := None; is_active := true |};
         {| org_id := 2; name := Some "Geological Survey Archive";
            short_name := None; abbreviation := Some " gsa"; level := 2;
            parent_id := None; is_active := true |} ];
     product_authorizations := [] |}.

(** An index in which an alias carries the identifier 0. *)
Definition zero_conn : conn :=
  {| federal_organizations :=
       [ {| org_id := 0; name := Some "General Services Administration";
            short_name := None; abbreviation := Some "GSA"; level := 1;
            parent_id := None; is_active := true |} ];
     product_authorizations := [] |}.

(** An active organization whose short name is blank: the index registers
    the empty string for it. *)
Definition blank_alias_conn : conn :=
  {| federal_organizations :=
       [ {| org_id := 1; name := Some "Office of Examples";
            short_name := Some " "; abbreviation := None; level := 1;
            parent_id := None; is_active := true |} ];
     product_authorizations := [] |}.

(** * Properties *)

(** ** Tests of the embedding on concrete inputs *)

Example normalize_example :
  normalize_name (Some "  Department of Example ") = "department of example".
Proof. reflexivity. Qed.

Example strip_inner_whitespace_kept :
  normalize_name (Some " General  Services	") = "general  services".
Proof. reflexivity. Qed.

Example match_example :
  match_agency_to_org "Department of the Treasury" ""
    {[ "treasury" := 7 ]} = Some 7.
Proof. vm_compute. reflexivity. Qed.

Example scenario_statistics :
  stats (reconciliation_pass (get_federal_organizations scenario_conn)
           scenario_rows)
  = {| total := 3; matched := 1; unmatched := 1; skipped := 0;
       duplicates := 1 |}.
Proof. vm_compute. reflexivity. Qed.

Example scenario_authorizations :
  organization_id <$>
    authorizations (reconciliation_pass
                      (get_federal_organizations scenario_conn) scenario_rows)
  = [Some 1; None].
Proof. vm_compute. reflexivity. Qed.

Example scenario_unmatched_agencies :
  unmatched_agencies (reconciliation_pass
                        (get_federal_organizations scenario_conn) scenario_rows)
    !! "Sub X" = Some 1%nat.
Proof. vm_compute. reflexivity. Qed.

(** ** Truthiness and normalisation *)

Lemma str_truthy_true (s : string) : str_truthy s = true ↔ s ≠ "".
Proof. destruct s; simpl; split; intros; congruence. Qed.


Lemma or_None_default (s : string) : default "" (or_None s) = s.
Proof. destruct s; reflexivity. Qed.

Lemma dedup_key_eq (row : gmap string string) :
  dedup_key row = (row_fedramp_id row, row_parent_agency row, row_sub_agency row).
Proof.
  unfold dedup_key. destruct (row_sub_agency row) eqn:E; reflexivity.
Qed.

Lemma conflict_key_authorization_of orgs (row : gmap string string) :
  conflict_key (authorization_of orgs row) = dedup_key row.
Proof.
  rewrite dedup_key_eq. unfold conflict_key, authorization_of; simpl.
  by rewrite or_None_default.
Qed.

(** ** The matcher *)

Lemma try_prefixes_precedence (parent_agency : string) (orgs : gmap string Z) :
  try_prefixes prefixes parent_agency orgs
  = or_else (stripped_lookup orgs "Department of " parent_agency)
      (stripped_lookup orgs "Department of the " parent_agency).
Proof.
  unfold prefixes, stripped_lookup, alias_lookup, or_else. cbn [try_prefixes].
  destruct (PyStr.startswith parent_agency "Department of ");
    destruct (PyStr.startswith parent_agency "Department of the ");
    repeat match goal with
           | |- context [orgs !! ?k] => destruct (orgs !! k)
           end;
    reflexivity.
Qed.

Lemma match_agency_to_org_guarded (parent_agency sub_agency : string)
  (orgs : gmap string Z) :
  parent_agency ≠ sentinel_jab →
  parent_agency ≠ sentinel_pmo →
  match_agency_to_org parent_agency sub_agency orgs
  = guarded_precedence parent_agency sub_agency orgs.
Proof.
  intros Hj Hp. unfold match_agency_to_org.
  apply String.eqb_neq in Hj, Hp. unfold sentinel_jab, sentinel_pmo in *.
  rewrite Hj, Hp. unfold guarded_precedence.
  rewrite <- try_prefixes_precedence. unfold alias_lookup, or_else.
  destruct sub_agency as [|c s], parent_agency as [|d p]; simpl str_truthy;
    repeat case_decide; try congruence; reflexivity.
Qed.

Lemma match_department_of_example (orgs : gmap string Z) :
  match_agency_to_org "Department of Example" "" orgs
  = or_else (orgs !! "department of example") (orgs !! "example").
Proof.
  rewrite match_agency_to_org_guarded by (unfold sentinel_jab, sentinel_pmo; discriminate).
  unfold guarded_precedence, stripped_lookup, alias_lookup.
  change (PyStr.startswith "Department of Example" "Department of ") with true.
  change (PyStr.startswith "Department of Example" "Department of the ")
    with false.
  change (normalize_name (Some "Department of Example"))
    with "department of example".
  change (normalize_name
            (Some (PyStr.drop (String.length "Department of ")
                     "Department of Example"))) with "example".
  repeat case_decide; try congruence.
  unfold or_else. destruct (orgs !! "department of example"), (orgs !! "example");
    reflexivity.
Qed.

(** C3: a parent agency equal to either sentinel label is unresolved, whatever
    the sub-agency and whatever the index holds. *)
Theorem sentinel_unresolved (sub_agency : string) (orgs : gmap string Z) :
  match_agency_to_org "Legacy JAB Authorization" sub_agency orgs = None
  ∧ match_agency_to_org "Federal Risk and Authorization Management Program"
      sub_agency orgs = None.
Proof. split; reflexivity. Qed.

(** The sentinels stay unresolved even when they and the sub-agency are
    registered aliases. *)
Example sentinel_registered_alias :
  match_agency_to_org "Legacy JAB Authorization" "GSA"
    {[ "legacy jab authorization" := 3; "gsa" := 4 ]} = None.
Proof. reflexivity. Qed.

(** C2, as amended: for a parent agency that is no sentinel the matcher
    returns the first hit among the non-empty sub-agency, the non-empty parent
    agency, the parent agency without "Department of " and the parent agency
    without "Department of the ", each normalised, and is unresolved when none
    hits; "Department of Example" with no sub-agency resolves exactly when
    "example" or "department of example" is registered. *)
Theorem matcher_precedence (orgs : gmap string Z) :
  (∀ parent_agency sub_agency,
     parent_agency ≠ sentinel_jab →
     parent_agency ≠ sentinel_pmo →
     match_agency_to_org parent_agency sub_agency orgs
     = guarded_precedence parent_agency sub_agency orgs)
  ∧ (is_Some (match_agency_to_org "Department of Example" "" orgs)
     ↔ is_Some (orgs !! "example")
       ∨ is_Some (orgs !! "department of example")).
Proof.
  split.
  - intros. by apply match_agency_to_org_guarded.
  - rewrite match_department_of_example. unfold or_else.
    destruct (orgs !! "department of example") eqn:E1,
             (orgs !! "example") eqn:E2; split; intros H;
      try (destruct H as [H|H]); eauto;
      try (by destruct H as [? H]; discriminate H).
Qed.

Lemma matcher_precedence_witness :
  match_agency_to_org "Department of the Treasury" "" {[ "treasury" := 7 ]}
  = guarded_precedence "Department of the Treasury" "" {[ "treasury" := 7 ]}.
Proof.
  apply (proj1 (matcher_precedence {[ "treasury" := 7 ]}));
    unfold sentinel_jab, sentinel_pmo; discriminate.
Defined.

(** C2, as stated, fails: with the empty string registered as an alias (by
    an organization whose short name is blank) and an empty parent agency, the
    stated precedence resolves through the parent agency, while the matcher
    never looks an empty parent agency up. *)
Lemma stated_precedence_fails :
  ¬ (∀ (orgs : gmap string Z) parent_agency sub_agency,
       parent_agency ≠ sentinel_jab →
       parent_agency ≠ sentinel_pmo →
       match_agency_to_org parent_agency sub_agency orgs
       = stated_precedence parent_agency sub_agency orgs).
Proof.
  intros H.
  specialize (H (get_federal_organizations blank_alias_conn) "" "").
  assert (E : match_agency_to_org "" ""
                (get_federal_organizations blank_alias_conn)
              = stated_precedence "" ""
                  (get_federal_organizations blank_alias_conn))
    by (apply H; unfold sentinel_jab, sentinel_pmo; discriminate).
  vm_compute in E. discriminate E.
Qed.

Example blank_alias_registered :
  get_federal_organizations blank_alias_conn !! "" = Some 1
  ∧ match_agency_to_org "" "" (get_federal_organizations blank_alias_conn)
    = None
  ∧ stated_precedence "" "" (get_federal_organizations blank_alias_conn)
    = Some 1.
Proof. vm_compute. repeat split. Qed.

(** ** The organization index *)

Lemma index_row_lookup (orgs : gmap string Z) (o : federal_organization)
  (k : string) :
  index_row orgs o !! k
  = if decide (k ∈ aliases o) then Some (org_id o) else orgs !! k.
Proof.
  unfold index_row, aliases.
  destruct (opt_str_truthy (short_name o)), (opt_str_truthy (abbreviation o));
    simpl; rewrite ?lookup_insert; repeat case_decide; try reflexivity;
    exfalso;
    repeat match goal with
           | H : context [_ ∈ _] |- _ => rewrite list_elem_of_In in H; simpl in H
           end;
    intuition congruence.
Qed.

Lemma index_rows_lookup_other (l : list federal_organization)
  (orgs : gmap string Z) (k : string) (i : Z) :
  orgs !! k = Some i →
  (∀ o, o ∈ l → k ∈ aliases o → org_id o = i) →
  fold_left index_row l orgs !! k = Some i.
Proof.
  revert orgs. induction l as [|o l IH]; intros orgs Hk Hl; simpl; [done|].
  apply IH.
  - rewrite index_row_lookup. case_decide; [|done].
    f_equal. apply Hl; [left | done].
  - intros o' Ho'. apply Hl. by right.
Qed.

Lemma index_rows_lookup_last (pre post : list federal_organization)
  (o : federal_organization) (orgs : gmap string Z) (k : string) :
  k ∈ aliases o →
  (∀ o', o' ∈ post → k ∈ aliases o' → org_id o' = org_id o) →
  fold_left index_row (pre ++ o :: post) orgs !! k = Some (org_id o).
Proof.
  intros Hk Hpost. rewrite fold_left_app. simpl.
  apply index_rows_lookup_other; [|done].
  rewrite index_row_lookup. by rewrite decide_True.
Qed.

Lemma abbreviation_alias (o : federal_organization) (a : string) :
  abbreviation o = Some a → a ≠ "" → normalize_name (Some a) ∈ aliases o.
Proof.
  intros Ha Hne. unfold aliases. rewrite Ha. simpl opt_str_truthy.
  apply str_truthy_true in Hne. rewrite Hne. set_solver.
Qed.

(** C4, as amended: among the active organizations in the order they are
    fetched, a record with a non-empty abbreviation is found under its
    normalised abbreviation provided every later record that registers the
    same normalised string (as name, short name or abbreviation) has the same
    identifier. *)
Theorem abbreviation_resolves (c : conn)
  (pre post : list federal_organization) (o : federal_organization)
  (a : string) :
  fetchall c = pre ++ o :: post →
  abbreviation o = Some a →
  a ≠ "" →
  (∀ o', o' ∈ post → normalize_name (Some a) ∈ aliases o' →
         org_id o' = org_id o) →
  get_federal_organizations c !! normalize_name (Some a) = Some (org_id o).
Proof.
  intros Hf Ha Hne Hpost. unfold get_federal_organizations. rewrite Hf.
  apply index_rows_lookup_last; [|done]. by apply abbreviation_alias.
Qed.

Lemma abbreviation_resolves_witness :
  get_federal_organizations scenario_conn !! normalize_name (Some "DOE2")
  = Some 1.
Proof.
  apply (abbreviation_resolves scenario_conn [] []
           {| org_id := 1; name := Some "Department of Example";
              short_name := None; abbreviation := Some "DOE2"; level := 1;
              parent_id := None; is_active := true |} "DOE2").
  - reflexivity.
  - reflexivity.
  - discriminate.
  - intros o' Ho'. inversion Ho'.
Defined.

(** C4, as stated, fails: when two active organizations share a normalised
    abbreviation, the index resolves it to the later one only. *)
Lemma abbreviation_collision :
  ¬ (∀ (c : conn) (o : federal_organization) (a : string),
       o ∈ fetchall c →
       abbreviation o = Some a →
       a ≠ "" →
       get_federal_organizations c !! normalize_name (Some a)
       = Some (org_id o)).
Proof.
  intros H.
  specialize (H collision_conn
                {| org_id := 1; name := Some "General Services Administration";
                   short_name := None; abbreviation := Some "GSA"; level := 1;
                   parent_id := None; is_active := true |} "GSA").
  assert (E : get_federal_organizations collision_conn
              !! normalize_name (Some "GSA") = Some 1).
  { apply H; [left | reflexivity | discriminate]. }
  vm_compute in E. discriminate E.
Qed.

(** ** One row through the loop *)

Lemma process_row_skipped orgs (st : pass_state) (row : gmap string string) :
  is_skipped row = true → process_row orgs st row = skip_effect st.
Proof.
  intros H. unfold process_row; cbv zeta.
  unfold is_skipped, row_fedramp_id, row_parent_agency in H.
  by rewrite H.
Qed.

Lemma process_row_duplicate orgs (st : pass_state) (row : gmap string string) :
  is_skipped row = false →
  dedup_key row ∈ seen st →
  process_row orgs st row = duplicate_effect st.
Proof.
  intros H Hin. unfold process_row; cbv zeta.
  unfold is_skipped, row_fedramp_id, row_parent_agency in H. rewrite H.
  unfold dedup_key, row_fedramp_id, row_parent_agency, row_sub_agency in Hin.
  simpl seen. by rewrite decide_True.
Qed.

Lemma process_row_matched orgs (st : pass_state) (row : gmap string string) :
  is_skipped row = false →
  dedup_key row ∉ seen st →
  int_truthy (match_agency_to_org (row_parent_agency row)
                (row_sub_agency row) orgs) = true →
  process_row orgs st row = matched_effect orgs row st.
Proof.
  intros H Hin Hm. unfold process_row; cbv zeta.
  unfold is_skipped, row_fedramp_id, row_parent_agency in H. rewrite H.
  unfold dedup_key, row_fedramp_id, row_parent_agency, row_sub_agency in Hin.
  simpl seen. rewrite decide_False by done.
  unfold row_parent_agency, row_sub_agency in Hm. by rewrite Hm.
Qed.

Lemma process_row_unmatched orgs (st : pass_state) (row : gmap string string) :
  is_skipped row = false →
  dedup_key row ∉ seen st →
  int_truthy (match_agency_to_org (row_parent_agency row)
                (row_sub_agency row) orgs) = false →
  process_row orgs st row = unmatched_effect orgs row st.
Proof.
  intros H Hin Hm. unfold process_row; cbv zeta.
  unfold is_skipped, row_fedramp_id, row_parent_agency in H. rewrite H.
  unfold dedup_key, row_fedramp_id, row_parent_agency, row_sub_agency in Hin.
  simpl seen. rewrite decide_False by done.
  unfold row_parent_agency, row_sub_agency in Hm. by rewrite Hm.
Qed.

(** The loop body takes exactly one transition of the state machine. *)
Lemma row_step_process_row orgs (st : pass_state) (row : gmap string string) :
  row_step orgs st row (process_row orgs st row).
Proof.
  destruct (is_skipped row) eqn:Hs.
  - rewrite process_row_skipped by done. by constructor.
  - destruct (decide (dedup_key row ∈ seen st)) as [Hin|Hin].
    + rewrite process_row_duplicate by done. by constructor.
    + destruct (int_truthy (match_agency_to_org (row_parent_agency row)
                              (row_sub_agency row) orgs)) eqn:Hm.
      * rewrite process_row_matched by done. by constructor.
      * rewrite process_row_unmatched by done. by constructor.
Qed.

Lemma row_step_deterministic orgs (st : pass_state) (row : gmap string string)
  (st1 st2 : pass_state) :
  row_step orgs st row st1 → row_step orgs st row st2 → st1 = st2.
Proof.
  intros H1 H2. destruct H1; inversion H2; subst; congruence || done.
Qed.

Lemma row_step_iff orgs (st : pass_state) (row : gmap string string)
  (st' : pass_state) :
  row_step orgs st row st' ↔ st' = process_row orgs st row.
Proof.
  split.
  - intros H. eapply row_step_deterministic; [exact H|].
    apply row_step_process_row.
  - intros ->. apply row_step_process_row.
Qed.

Lemma run_process_rows orgs (rows : list (gmap string string))
  (st : pass_state) :
  run orgs st rows (process_rows orgs st rows).
Proof.
  revert st. induction rows as [|row rows IH]; intros st; simpl.
  - constructor.
  - econstructor; [apply row_step_process_row | apply IH].
Qed.

Lemma run_deterministic orgs (rows : list (gmap string string))
  (st st1 st2 : pass_state) :
  run orgs st rows st1 → run orgs st rows st2 → st1 = st2.
Proof.
  intros H1. revert st2. induction H1 as [st|st row st' rows st'' Hs Hr IH];
    intros st2 H2; inversion H2; subst; [done|].
  apply IH.
  match goal with
  | H : row_step _ _ _ ?s |- _ =>
      rewrite (row_step_deterministic _ _ _ _ _ Hs H)
  end.
  done.
Qed.

Lemma process_rows_app orgs (pre post : list (gmap string string))
  (st : pass_state) :
  process_rows orgs st (pre ++ post)
  = process_rows orgs (process_rows orgs st pre) post.
Proof. unfold process_rows. apply fold_left_app. Qed.

Lemma process_rows_cons orgs (row : gmap string string)
  (rows : list (gmap string string)) (st : pass_state) :
  process_rows orgs st (row :: rows)
  = process_rows orgs (process_row orgs st row) rows.
Proof. reflexivity. Qed.

(** ** The set [seen] and the retained rows *)

Lemma elem_of_keys_of (rows : list (gmap string string))
  (k : string * string * string) :
  k ∈ keys_of rows
  ↔ ∃ r, r ∈ rows ∧ is_skipped r = false ∧ dedup_key r = k.
Proof.
  unfold keys_of. rewrite elem_of_list_to_set, list_elem_of_fmap.
  split.
  - intros (r & -> & Hr). apply list_elem_of_filter in Hr as [Hs Hr]. eauto.
  - intros (r & Hr & Hs & <-). exists r. split; [done|].
    apply list_elem_of_filter. done.
Qed.

Lemma occurrence_in_keys_of (pre : list (gmap string string))
  (r : gmap string string) :
  dedup_key r ∈ keys_of pre ↔ Exists (occurrence_of r) pre.
Proof.
  rewrite elem_of_keys_of, Exists_exists. unfold occurrence_of. done.
Qed.

Lemma keys_of_snoc (pre : list (gmap string string)) (r : gmap string string) :
  keys_of (pre ++ [r])
  = if is_skipped r then keys_of pre else {[ dedup_key r ]} ∪ keys_of pre.
Proof.
  apply set_eq. intros k. destruct (is_skipped r) eqn:Hs.
  - rewrite !elem_of_keys_of. split.
    + intros (r' & Hr' & Hs' & Hk). apply elem_of_app in Hr' as [Hr'|Hr'].
      * eauto.
      * apply list_elem_of_singleton in Hr'. congruence.
    + intros (r' & Hr' & Hs' & Hk). exists r'. rewrite elem_of_app. eauto.
  - rewrite elem_of_union, elem_of_singleton, !elem_of_keys_of. split.
    + intros (r' & Hr' & Hs' & Hk). apply elem_of_app in Hr' as [Hr'|Hr'].
      * right. eauto.
      * apply list_elem_of_singleton in Hr'. left. congruence.
    + intros [->|(r' & Hr' & Hs' & Hk)].
      * exists r. rewrite elem_of_app, list_elem_of_singleton. eauto.
      * exists r'. rewrite elem_of_app. eauto.
Qed.

Lemma seen_process_row orgs (st : pass_state) (row : gmap string string) :
  seen (process_row orgs st row)
  = if is_skipped row then seen st else {[ dedup_key row ]} ∪ seen st.
Proof.
  destruct (row_step_process_row orgs st row) as [Hs|Hs Hin|Hs Hin Hm|Hs Hin Hm];
    rewrite Hs; simpl; try reflexivity.
  apply set_eq. intros k. rewrite elem_of_union, elem_of_singleton.
  split; [tauto|]. intros [->|]; done.
Qed.

(** After the rows [pre], [seen] holds the keys of the non-skipped ones. *)
Lemma seen_reconciliation_pass orgs (pre : list (gmap string string)) :
  seen (reconciliation_pass orgs pre) = keys_of pre.
Proof.
  unfold reconciliation_pass.
  induction pre as [|r pre IH] using rev_ind; [reflexivity|].
  rewrite process_rows_app, process_rows_cons. simpl process_rows.
  rewrite seen_process_row, IH, keys_of_snoc. done.
Qed.

Lemma retained_after_app (pre l1 l2 : list (gmap string string)) :
  retained_after pre (l1 ++ l2)
  = retained_after pre l1 ++ retained_after (pre ++ l1) l2.
Proof.
  revert pre. induction l1 as [|r l1 IH]; intros pre; simpl.
  - by rewrite app_nil_r.
  - rewrite IH, <- app_assoc. simpl. by case_decide.
Qed.

Lemma retained_snoc (pre : list (gmap string string)) (r : gmap string string) :
  retained (pre ++ [r])
  = retained pre ++ (if decide (is_retained pre r) then [r] else []).
Proof.
  unfold retained. rewrite retained_after_app. simpl. by case_decide.
Qed.

Lemma elem_of_retained_after (pre rows : list (gmap string string))
  (r : gmap string string) :
  r ∈ retained_after pre rows →
  ∃ l1 l2, rows = l1 ++ r :: l2 ∧ is_retained (pre ++ l1) r.
Proof.
  revert pre. induction rows as [|r' rows IH]; intros pre; simpl.
  - intros H. inversion H.
  - intros H.
    assert (Hcase : (r = r' ∧ is_retained pre r')
                    ∨ r ∈ retained_after (pre ++ [r']) rows).
    { case_decide; [|by right].
      apply elem_of_cons in H as [->|H]; [left|right]; done. }
    destruct Hcase as [[-> Hret]|Hin].
    + exists [], rows. by rewrite app_nil_r.
    + destruct (IH _ Hin) as (l1 & l2 & -> & Hret).
      exists (r' :: l1), l2. split; [done|]. by rewrite <- app_assoc in Hret.
Qed.

(** The transition a row takes after the rows [pre], told by the rows
    alone. *)
Lemma process_row_cases orgs (pre : list (gmap string string))
  (r : gmap string string) :
  let st := reconciliation_pass orgs pre in
  (is_skipped r = true ∧ ¬ is_retained pre r
   ∧ process_row orgs st r = skip_effect st)
  ∨ (is_skipped r = false ∧ Exists (occurrence_of r) pre ∧ ¬ is_retained pre r
     ∧ process_row orgs st r = duplicate_effect st)
  ∨ (is_retained pre r
     ∧ int_truthy (match_agency_to_org (row_parent_agency r)
                     (row_sub_agency r) orgs) = true
     ∧ process_row orgs st r = matched_effect orgs r st)
  ∨ (is_retained pre r
     ∧ int_truthy (match_agency_to_org (row_parent_agency r)
                     (row_sub_agency r) orgs) = false
     ∧ process_row orgs st r = unmatched_effect orgs r st).
Proof.
  intros st. pose proof (seen_reconciliation_pass orgs pre) as Hseen.
  fold st in Hseen. unfold is_retained.
  destruct (is_skipped r) eqn:Hs.
  { left. split; [done|]. split; [intros [? _]; congruence|].
    by apply process_row_skipped. }
  right.
  destruct (decide (dedup_key r ∈ seen st)) as [Hin|Hin].
  { left. split; [done|]. rewrite Hseen, occurrence_in_keys_of in Hin.
    split; [done|]. split; [intros [_ ?]; done|].
    apply process_row_duplicate; [done|].
    by rewrite Hseen, occurrence_in_keys_of. }
  right.
  assert (Hnot : ¬ Exists (occurrence_of r) pre)
    by (by rewrite <- occurrence_in_keys_of, <- Hseen).
  destruct (int_truthy (match_agency_to_org (row_parent_agency r)
                          (row_sub_agency r) orgs)) eqn:Hm.
  - left. repeat split; try done. by apply process_row_matched.
  - right. repeat split; try done. by apply process_row_unmatched.
Qed.

Lemma reconciliation_pass_snoc orgs (pre : list (gmap string string))
  (r : gmap string string) :
  reconciliation_pass orgs (pre ++ [r])
  = process_row orgs (reconciliation_pass orgs pre) r.
Proof. unfold reconciliation_pass. by rewrite process_rows_app. Qed.

(** The records emitted are those of the retained rows, in input order. *)
Lemma authorizations_reconciliation_pass orgs (rows : list (gmap string string)) :
  authorizations (reconciliation_pass orgs rows)
  = authorization_of orgs <$> retained rows.
Proof.
  induction rows as [|r pre IH] using rev_ind; [reflexivity|].
  rewrite reconciliation_pass_snoc, retained_snoc, fmap_app, <- IH.
  destruct (process_row_cases orgs pre r)
    as [(_ & Hn & ->)|[(_ & _ & Hn & ->)|[(Hr & _ & ->)|(Hr & _ & ->)]]];
    simpl; rewrite ?(decide_False _ _ Hn), ?(decide_True _ _ Hr);
    simpl; by rewrite ?app_nil_r.
Qed.

(** The matcher is called once per retained row, in input order. *)
Lemma matcher_calls_reconciliation_pass orgs
  (rows : list (gmap string string)) :
  matcher_calls (reconciliation_pass orgs rows)
  = (λ r, (row_parent_agency r, row_sub_agency r)) <$> retained rows.
Proof.
  induction rows as [|r pre IH] using rev_ind; [reflexivity|].
  rewrite reconciliation_pass_snoc, retained_snoc, fmap_app, <- IH.
  destruct (process_row_cases orgs pre r)
    as [(_ & Hn & ->)|[(_ & _ & Hn & ->)|[(Hr & _ & ->)|(Hr & _ & ->)]]];
    simpl; rewrite ?(decide_False _ _ Hn), ?(decide_True _ _ Hr);
    simpl; by rewrite ?app_nil_r.
Qed.

(** ** The counters *)

Lemma counters_reconciliation_pass orgs (rows : list (gmap string string)) :
  let s := stats (reconciliation_pass orgs rows) in
  total s = length rows
  ∧ skipped s = length (filter (λ r, is_skipped r = true) rows)
  ∧ (matched s + unmatched s)%nat = length (retained rows)
  ∧ (duplicates s + length (retained rows))%nat
    = length (filter (λ r, is_skipped r = false) rows).
Proof.
  induction rows as [|r pre IH] using rev_ind; [by repeat split|].
  rewrite reconciliation_pass_snoc, retained_snoc, !filter_app, !length_app.
  destruct IH as (Ht & Hs & Hm & Hd).
  destruct (process_row_cases orgs pre r)
    as [(Hk & Hn & ->)|[(Hk & _ & Hn & ->)|[(Hr & _ & ->)|(Hr & _ & ->)]]];
    try (pose proof (proj1 Hr) as Hk);
    rewrite ?(decide_False _ _ Hn), ?(decide_True _ _ Hr);
    rewrite !filter_cons, !filter_nil, Hk; simpl;
    repeat case_decide; try congruence; simpl; repeat split; lia.
Qed.


(** C1: after the pass the counters add up to the number of input rows, and
    the emitted records are exactly those of the retained rows (neither
    skipped nor duplicates), one per row and [matched + unmatched] in all. *)
Theorem statistics_invariant (orgs : gmap string Z)
  (rows : list (gmap string string)) :
  let st := reconciliation_pass orgs rows in
  let s := stats st in
  total s = length rows
  ∧ (matched s + unmatched s + duplicates s + skipped s)%nat = total s
  ∧ (matched s + unmatched s)%nat = (total s - duplicates s - skipped s)%nat
  ∧ length (authorizations st) = (matched s + unmatched s)%nat
  ∧ authorizations st = authorization_of orgs <$> retained rows.
Proof.
  intros st s.
  destruct (counters_reconciliation_pass orgs rows) as (Ht & Hs & Hm & Hd).
  fold st in Ht, Hs, Hm, Hd. fold s in Ht, Hs, Hm, Hd.
  pose proof (authorizations_reconciliation_pass orgs rows) as Ha.
  fold st in Ha.
  assert (Hsplit : (length (filter (λ r, is_skipped r = true) rows)
                    + length (filter (λ r, is_skipped r = false) rows))%nat
                   = length rows).
  { clear. induction rows as [|r rows IH]; [done|].
    rewrite !filter_cons. destruct (is_skipped r); repeat case_decide;
      try congruence; simpl; lia. }
  assert (Hl : length (authorizations st) = (matched s + unmatched s)%nat)
    by (by rewrite Ha, length_fmap).
  repeat split; try done; lia.
Qed.

(** ** Skipped rows and duplicates *)




Lemma filter_none {A} (P : A → Prop) `{∀ x, Decision (P x)} (l : list A) :
  (∀ x, x ∈ l → ¬ P x) → filter P l = [].
Proof.
  induction l as [|a l IH]; intros Hl; [done|].
  rewrite filter_cons, decide_False by (apply Hl; left).
  apply IH. intros x Hx. apply Hl. by right.
Qed.

Lemma filter_fmap_key {A B K} `{EqDecision K} (f : A → B) (kb : B → K)
  (ka : A → K) (k : K) (l : list A) :
  (∀ x, kb (f x) = ka x) →
  filter (λ b, kb b = k) (f <$> l) = f <$> filter (λ a, ka a = k) l.
Proof.
  intros Hk. induction l as [|a l IH]; [done|].
  rewrite fmap_cons, !filter_cons, Hk.
  case_decide; by rewrite IH.
Qed.

Lemma retained_after_subset (pre rows : list (gmap string string))
  (r : gmap string string) :
  r ∈ retained_after pre rows → r ∈ rows ∧ is_skipped r = false.
Proof.
  intros H. apply elem_of_retained_after in H as (l1 & l2 & -> & Hs & _).
  split; [|done]. rewrite elem_of_app. right. left.
Qed.

(** The first non-skipped row with a given key is the only retained row
    with that key. *)
Lemma retained_key_unique (pre rest : list (gmap string string))
  (r0 : gmap string string) :
  is_retained pre r0 →
  filter (λ x, dedup_key x = dedup_key r0) (retained (pre ++ r0 :: rest))
  = [r0].
Proof.
  intros Hret. unfold retained. rewrite retained_after_app. simpl.
  rewrite decide_True by done.
  rewrite filter_app, filter_cons, decide_True by done.
  rewrite !filter_none; [done| |].
  - intros x Hx Hk.
    apply elem_of_retained_after in Hx as (l1 & l2 & -> & _ & Hno).
    apply Hno. apply Exists_exists. exists r0. split.
    + rewrite elem_of_app. left. rewrite elem_of_app. right. left.
    + split; [apply Hret | done].
  - intros x Hx Hk. apply retained_after_subset in Hx as [Hx Hs].
    destruct Hret as [_ Hno]. apply Hno. apply Exists_exists. exists x.
    split; [done|]. split; done.
Qed.

(** C5: when a non-skipped row has the natural key of an earlier retained
    row, it only moves [total] and [duplicates] up by one: it is not passed to
    the matcher and no record is emitted for it; the only record emitted with
    that key is that of the first occurrence. *)
Theorem duplicate_dropped (orgs : gmap string Z)
  (pre mid post : list (gmap string string)) (r0 r : gmap string string) :
  is_retained pre r0 →
  is_skipped r = false →
  dedup_key r = dedup_key r0 →
  let st := reconciliation_pass orgs (pre ++ r0 :: mid) in
  let st' := process_row orgs st r in
  let final := reconciliation_pass orgs (pre ++ r0 :: mid ++ r :: post) in
  duplicates (stats st') = S (duplicates (stats st))
  ∧ total (stats st') = S (total (stats st))
  ∧ matched (stats st') = matched (stats st)
  ∧ unmatched (stats st') = unmatched (stats st)
  ∧ skipped (stats st') = skipped (stats st)
  ∧ authorizations st' = authorizations st
  ∧ matcher_calls st' = matcher_calls st
  ∧ unmatched_agencies st' = unmatched_agencies st
  ∧ seen st' = seen st
  ∧ filter (λ a, conflict_key a = dedup_key r0) (authorizations final)
    = [authorization_of orgs r0].
Proof.
  intros Hret Hs Hk st st' final.
  assert (E : st' = duplicate_effect st).
  { apply process_row_duplicate; [done|]. unfold st.
    rewrite seen_reconciliation_pass, occurrence_in_keys_of.
    apply Exists_exists. exists r0. split.
    - rewrite elem_of_app. right. left.
    - split; [apply Hret | done]. }
  rewrite E. repeat split.
  unfold final. rewrite authorizations_reconciliation_pass.
  rewrite (filter_fmap_key _ _ dedup_key)
    by apply conflict_key_authorization_of.
  by rewrite retained_key_unique.
Qed.

Lemma duplicate_dropped_witness :
  let orgs := get_federal_organizations scenario_conn in
  let r := mk_row "F-001" "Department of Example" "" in
  let st := reconciliation_pass orgs [r] in
  duplicates (stats (process_row orgs st r)) = S (duplicates (stats st))
  ∧ authorizations (process_row orgs st r) = authorizations st.
Proof.
  intros orgs r st.
  destruct (duplicate_dropped orgs [] [] [mk_row "F-002" "Unknown Dept" "Sub X"]
              r r) as (H1 & _ & _ & _ & _ & H2 & _).
  - split; [reflexivity|]. intros H. inversion H.
  - reflexivity.
  - reflexivity.
  - split; [exact H1 | exact H2].
Defined.

(** ** Matched and unmatched rows *)

(** A retained row is emitted with what the matcher returned; it counts as
    matched when that is a non-zero identifier, and as unmatched, under its
    sub-agency if any and its parent agency otherwise, when it is [None]. *)
Lemma retained_row_classified orgs (st : pass_state)
  (row : gmap string string) :
  is_skipped row = false →
  dedup_key row ∉ seen st →
  let org := match_agency_to_org (row_parent_agency row)
               (row_sub_agency row) orgs in
  let st' := process_row orgs st row in
  authorizations st' = authorizations st ++ [authorization_of orgs row]
  ∧ organization_id (authorization_of orgs row) = org
  ∧ matcher_calls st'
    = matcher_calls st ++ [(row_parent_agency row, row_sub_agency row)]
  ∧ (∀ i, org = Some i → i ≠ 0 →
          matched (stats st') = S (matched (stats st))
          ∧ unmatched (stats st') = unmatched (stats st)
          ∧ unmatched_agencies st' = unmatched_agencies st)
  ∧ (org = None →
     matched (stats st') = matched (stats st)
     ∧ unmatched (stats st') = S (unmatched (stats st))
     ∧ unmatched_agencies st'
       = <[unmatched_label row :=
             S (default 0%nat (unmatched_agencies st !! unmatched_label row))]>
           (unmatched_agencies st)).
Proof.
  intros Hs Hin org st'.
  destruct (int_truthy org) eqn:Hm.
  - assert (E : st' = matched_effect orgs row st)
      by (by apply process_row_matched).
    rewrite E. repeat split; intros; subst org; try done.
    all: match goal with
         | H : _ = None |- _ => rewrite H in Hm; discriminate Hm
         end.
  - assert (E : st' = unmatched_effect orgs row st)
      by (by apply process_row_unmatched).
    rewrite E. repeat split; intros; subst org; try done.
    all: match goal with
         | H : _ = Some ?i, Hi : ?i ≠ 0 |- _ =>
             rewrite H in Hm; simpl in Hm;
             apply negb_false_iff, Z.eqb_eq in Hm; done
         end.
Qed.

(** C9: a retained row that the matcher resolves to the identifier 0 is
    counted as unmatched and entered in the table of unmatched agencies, and
    is emitted with the organization reference 0, not a null one. *)
Theorem zero_identifier_unmatched (orgs : gmap string Z) (st : pass_state)
  (row : gmap string string) :
  is_skipped row = false →
  dedup_key row ∉ seen st →
  match_agency_to_org (row_parent_agency row) (row_sub_agency row) orgs
  = Some 0 →
  let st' := process_row orgs st row in
  unmatched (stats st') = S (unmatched (stats st))
  ∧ matched (stats st') = matched (stats st)
  ∧ unmatched_agencies st' !! unmatched_label row
    = Some (S (default 0%nat (unmatched_agencies st !! unmatched_label row)))
  ∧ ∃ a, authorizations st' = authorizations st ++ [a]
         ∧ organization_id a = Some 0
         ∧ fedramp_id a = row_fedramp_id row.
Proof.
  intros Hs Hin Hm st'.
  assert (E : st' = unmatched_effect orgs row st).
  { apply process_row_unmatched; [done..|]. by rewrite Hm. }
  rewrite E. simpl. rewrite lookup_insert_eq. repeat split.
  exists (authorization_of orgs row). by repeat split.
Qed.

Lemma zero_identifier_unmatched_witness :
  let orgs := get_federal_organizations zero_conn in
  let row := mk_row "F-001" "GSA" "" in
  unmatched (stats (process_row orgs init_state row)) = 1%nat
  ∧ matched (stats (process_row orgs init_state row)) = 0%nat.
Proof.
  intros orgs row.
  destruct (zero_identifier_unmatched orgs init_state row)
    as (H1 & H2 & _).
  - reflexivity.
  - apply not_elem_of_empty.
  - reflexivity.
  - split; [exact H1 | exact H2].
Defined.

(** C7 at an index that registers the identifier 0: the matcher returns an
    identifier for the row, which is retained and emitted with it, yet the row
    is counted as unmatched and [matched] stays at 0. *)
Theorem zero_identifier_counted_unmatched :
  let orgs := get_federal_organizations zero_conn in
  let st := reconciliation_pass orgs [mk_row "F-001" "GSA" ""] in
  match_agency_to_org "GSA" "" orgs = Some 0
  ∧ organization_id <$> authorizations st = [Some 0]
  ∧ matched (stats st) = 0%nat
  ∧ unmatched (stats st) = 1%nat
  ∧ unmatched_agencies st !! "GSA" = Some 1%nat.
Proof. vm_compute. repeat split. Qed.

(** ** Running the pass again *)

Lemma get_federal_organizations_frame (c c' : conn) :
  federal_organizations c' = federal_organizations c →
  get_federal_organizations c' = get_federal_organizations c.
Proof.
  intros H. unfold get_federal_organizations, fetchall. by rewrite H.
Qed.

Lemma main_federal_organizations (c : conn)
  (rows : list (gmap string string)) :
  federal_organizations (main c rows).2 = federal_organizations c.
Proof.
  unfold main. by destruct (print_statistics _).
Qed.

(** A second run of [main], on the database the first one left, ends as the
    first one did. *)
Lemma main_rerun (c : conn) (rows : list (gmap string string)) :
  main (main c rows).2 rows = main c rows.
Proof.
  pose proof (get_federal_organizations_frame c (main c rows).2
                (main_federal_organizations c rows)) as Ho.
  pose proof (main_federal_organizations c rows) as Hf.
  unfold main at 1. rewrite Ho, Hf. unfold main.
  by destruct (print_statistics _).
Qed.

(** C8: the pass is a function of the rows and the index. Every run of the
    state machine from the fresh state over the same rows with the same index
    ends in the same counters, the same table of unmatched agencies and the
    same list of records, and there is such a run; running [main] a second
    time on the database left by the first run repeats its outcome. *)
Theorem pass_deterministic (orgs : gmap string Z)
  (rows : list (gmap string string)) :
  (∃ st, run orgs init_state rows st)
  ∧ (∀ st1 st2,
       run orgs init_state rows st1 →
       run orgs init_state rows st2 →
       stats st1 = stats st2
       ∧ unmatched_agencies st1 = unmatched_agencies st2
       ∧ authorizations st1 = authorizations st2)
  ∧ (∀ c, main (main c rows).2 rows = main c rows).
Proof.
  split; [|split].
  - exists (process_rows orgs init_state rows). apply run_process_rows.
  - intros st1 st2 H1 H2.
    by rewrite (run_deterministic _ _ _ _ _ H1 H2).
  - intros c. apply main_rerun.
Qed.

Lemma pass_deterministic_witness :
  let orgs := get_federal_organizations scenario_conn in
  stats (reconciliation_pass orgs scenario_rows)
  = stats (process_rows orgs init_state scenario_rows).
Proof.
  intros orgs.
  apply (proj1 (proj2 (pass_deterministic orgs scenario_rows)));
    apply run_process_rows.
Defined.

(** ** The summary *)

Lemma truediv_raises (a b : nat) :
  truediv a b = inl ZeroDivisionError ↔ b = 0%nat.
Proof. destruct b; simpl; split; intros; congruence. Qed.

Lemma print_statistics_raises (s : stats_dict) :
  print_statistics s = inl ZeroDivisionError
  ↔ (matched s + unmatched s)%nat = 0%nat.
Proof.
  unfold print_statistics.
  destruct (matched s + unmatched s)%nat; simpl; split; intros; congruence.
Qed.

Lemma print_statistics_returns (s : stats_dict) :
  (matched s + unmatched s)%nat ≠ 0%nat → ∃ sm, print_statistics s = inr sm.
Proof.
  unfold print_statistics.
  destruct (matched s + unmatched s)%nat; [done|]. simpl. eauto.
Qed.

Lemma retained_after_nil_iff (pre rows : list (gmap string string)) :
  Forall (λ r, is_skipped r = true) pre →
  retained_after pre rows = [] ↔ Forall (λ r, is_skipped r = true) rows.
Proof.
  revert pre. induction rows as [|r rows IH]; intros pre Hpre; simpl.
  - split; [constructor | done].
  - assert (Hno : ¬ Exists (occurrence_of r) pre).
    { rewrite Exists_exists. intros (x & Hx & Hs & _).
      rewrite Forall_forall in Hpre. specialize (Hpre x Hx). congruence. }
    destruct (is_skipped r) eqn:Hs.
    + rewrite decide_False by (intros [? _]; congruence).
      rewrite IH by (apply Forall_app; split; [done | by constructor]).
      split; [by constructor | by inversion 1].
    + rewrite decide_True by done.
      split; [done | inversion 1; congruence].
Qed.

Lemma retained_nil_iff (rows : list (gmap string string)) :
  retained rows = [] ↔ Forall (λ r, is_skipped r = true) rows.
Proof. apply retained_after_nil_iff. constructor. Qed.

(** C10: the summary divides by [matched + unmatched], the number of retained
    rows. [main] raises [ZeroDivisionError], leaving the database as it found
    it, exactly when no row is retained, that is when every row is skipped
    (an empty input among them); with a retained row it returns and
    replaces the table. *)
Theorem summary_division (c : conn) (rows : list (gmap string string)) :
  let orgs := get_federal_organizations c in
  let st := reconciliation_pass orgs rows in
  (matched (stats st) + unmatched (stats st))%nat = length (retained rows)
  ∧ (retained rows = [] ↔ Forall (λ r, is_skipped r = true) rows)
  ∧ (main c rows = (inl ZeroDivisionError, c) ↔ retained rows = [])
  ∧ (retained rows ≠ [] →
     ∃ sm, main c rows
           = (inr (st, sm),
              {| federal_organizations := federal_organizations c;
                 product_authorizations :=
                   execute_values [] (authorizations st) |}))
  ∧ main c [] = (inl ZeroDivisionError, c).
Proof.
  intros orgs st.
  destruct (counters_reconciliation_pass orgs rows) as (_ & _ & Hm & _).
  fold st in Hm.
  assert (Hnil : retained rows = [] ↔ (matched (stats st) + unmatched (stats st))%nat = 0%nat).
  { rewrite Hm. split; [by intros -> | apply length_zero_iff_nil]. }
  split; [done|]. split; [apply retained_nil_iff|].
  split; [|split].
  - rewrite Hnil, <- print_statistics_raises. unfold main. fold orgs st.
    destruct (print_statistics (stats st)) as [[]|sm]; split; intros H;
      try done; inversion H.
  - intros Hne. rewrite Hnil in Hne.
    destruct (print_statistics_returns _ Hne) as [sm Hsm].
    exists sm. unfold main. fold orgs st. by rewrite Hsm.
  - reflexivity.
Qed.

Lemma summary_division_witness :
  retained scenario_rows ≠ []
  ∧ ∃ out c', main scenario_conn scenario_rows = (inr out, c').
Proof.
  assert (Hne : retained scenario_rows ≠ []) by (vm_compute; discriminate).
  split; [exact Hne|].
  destruct (proj1 (proj2 (proj2 (proj2
              (summary_division scenario_conn scenario_rows)))) Hne)
    as [sm Hsm].
  eauto.
Defined.

(** The database is untouched by a run over rows that are all skipped. *)
Example all_skipped_raises :
  main scenario_conn [mk_row "" "Department of Example" ""; mk_row "F-9" " " ""]
  = (inl ZeroDivisionError, scenario_conn).
Proof. vm_compute. reflexivity. Qed.

(** * Further properties of the importer *)

(** ** normalize_name *)

Lemma lower_char_idem (c : ascii) :
  PyStr.lower_char (PyStr.lower_char c) = PyStr.lower_char c.
Proof. destruct c as [[] [] [] [] [] [] [] []]; reflexivity. Qed.

Lemma isspace_lower_char (c : ascii) :
  PyStr.isspace (PyStr.lower_char c) = PyStr.isspace c.
Proof. destruct c as [[] [] [] [] [] [] [] []]; reflexivity. Qed.

Lemma lower_idem (s : string) : PyStr.lower (PyStr.lower s) = PyStr.lower s.
Proof. induction s as [|c s IH]; simpl; [done|]. by rewrite lower_char_idem, IH. Qed.

Lemma lower_lstrip (s : string) :
  PyStr.lower (PyStr.lstrip s) = PyStr.lstrip (PyStr.lower s).
Proof.
  induction s as [|c s IH]; simpl; [done|].
  rewrite isspace_lower_char. by destruct (PyStr.isspace c).
Qed.

Lemma lower_rstrip (s : string) :
  PyStr.lower (PyStr.rstrip s) = PyStr.rstrip (PyStr.lower s).
Proof.
  induction s as [|c s IH]; simpl; [done|].
  rewrite <- IH, isspace_lower_char.
  destruct (PyStr.rstrip s); simpl; [|done]. by destruct (PyStr.isspace c).
Qed.

Lemma lower_strip (s : string) :
  PyStr.lower (PyStr.strip s) = PyStr.strip (PyStr.lower s).
Proof. unfold PyStr.strip. by rewrite lower_rstrip, lower_lstrip. Qed.

Lemma lstrip_no_leading_space (s : string) : no_leading_space (PyStr.lstrip s).
Proof.
  induction s as [|c s IH]; simpl; [done|].
  destruct (PyStr.isspace c) eqn:E; [done|]. exact E.
Qed.

Lemma lstrip_id (s : string) : no_leading_space s → PyStr.lstrip s = s.
Proof. destruct s as [|c s]; simpl; [done|]. by intros ->. Qed.

Lemma rstrip_no_leading_space (s : string) :
  no_leading_space s → no_leading_space (PyStr.rstrip s).
Proof.
  destruct s as [|c s]; simpl; [done|]. intros Hc.
  destruct (PyStr.rstrip s); simpl; [by rewrite Hc|done].
Qed.

Lemma rstrip_idem (s : string) : PyStr.rstrip (PyStr.rstrip s) = PyStr.rstrip s.
Proof.
  induction s as [|c s IH]; simpl; [done|].
  destruct (PyStr.rstrip s) as [|d t] eqn:E.
  - destruct (PyStr.isspace c) eqn:Hc; simpl; [done|]. by rewrite Hc.
  - simpl. simpl in IH. by rewrite IH.
Qed.

Lemma strip_idem (s : string) : PyStr.strip (PyStr.strip s) = PyStr.strip s.
Proof.
  unfold PyStr.strip.
  rewrite (lstrip_id (PyStr.rstrip _))
    by apply rstrip_no_leading_space, lstrip_no_leading_space.
  apply rstrip_idem.
Qed.

Lemma normalize_name_Some (s : string) :
  normalize_name (Some s) = PyStr.strip (PyStr.lower s).
Proof. by destruct s. Qed.

Lemma normalize_name_idem (name : option string) :
  normalize_name (Some (normalize_name name)) = normalize_name name.
Proof.
  destruct name as [s|]; [|reflexivity].
  rewrite !normalize_name_Some.
  by rewrite lower_strip, lower_idem, strip_idem.
Qed.

Lemma strip_no_leading_space (s : string) : no_leading_space (PyStr.strip s).
Proof. apply rstrip_no_leading_space, lstrip_no_leading_space. Qed.

(** Normalising twice is normalising once, and a normalised name carries no
    blank at either end and no letter that lowering would change: every key
    of the index, and every string the matcher looks up, is its own normal
    form. *)
Theorem normalize_name_idempotent (name : option string) :
  normalize_name (Some (normalize_name name)) = normalize_name name
  ∧ PyStr.strip (normalize_name name) = normalize_name name
  ∧ PyStr.lower (normalize_name name) = normalize_name name.
Proof.
  split; [apply normalize_name_idem|].
  destruct name as [s|]; [|by split].
  rewrite normalize_name_Some. split; [apply strip_idem|].
  by rewrite lower_strip, lower_idem.
Qed.

(** ** The keys and the values of the index *)

Lemma index_rows_lookup_inv (l : list federal_organization)
  (orgs : gmap string Z) (k : string) (i : Z) :
  fold_left index_row l orgs !! k = Some i →
  orgs !! k = Some i ∨ ∃ o, o ∈ l ∧ k ∈ aliases o ∧ org_id o = i.
Proof.
  revert orgs. induction l as [|o l IH]; intros orgs; simpl; [by left|].
  intros H. apply IH in H as [H|(o' & Ho' & Hk & Hi)].
  - rewrite index_row_lookup in H. case_decide.
    + right. exists o. split; [left|]. split; [done|]. by injection H.
    + by left.
  - right. exists o'. split; [by right | done].
Qed.

Lemma index_rows_lookup_is_Some (l : list federal_organization)
  (orgs : gmap string Z) (k : string) (o : federal_organization) :
  o ∈ l → k ∈ aliases o → is_Some (fold_left index_row l orgs !! k).
Proof.
  revert orgs o. induction l as [|o' l IH]; intros orgs o Ho Hk;
    [inversion Ho|].
  simpl. apply elem_of_cons in Ho as [->|Ho]; [|by eapply IH].
  destruct (decide (Exists (λ o, k ∈ aliases o) l)) as [He|He].
  - apply Exists_exists in He as (o & Ho & Hko). by eapply IH.
  - exists (org_id o'). apply index_rows_lookup_other.
    + rewrite index_row_lookup. by rewrite decide_True.
    + intros o Ho Hko. exfalso. apply He, Exists_exists. eauto.
Qed.

Lemma index_value_active (c : conn) (k : string) (i : Z) :
  get_federal_organizations c !! k = Some i →
  ∃ o, o ∈ federal_organizations c ∧ is_active o = true
       ∧ k ∈ aliases o ∧ org_id o = i.
Proof.
  intros H. unfold get_federal_organizations in H.
  apply index_rows_lookup_inv in H as [H|(o & Ho & Hk & Hi)].
  - by rewrite lookup_empty in H.
  - unfold fetchall in Ho. apply list_elem_of_filter in Ho as [Ha Ho].
    eauto 6.
Qed.

(** The keys of the index are exactly the normalised names, short names and
    abbreviations of the active organizations, and every value is the
    identifier of an active organization that registers the key: an inactive
    organization is never resolved to. *)
Theorem index_keys_and_values (c : conn) (k : string) :
  (is_Some (get_federal_organizations c !! k)
   ↔ ∃ o, o ∈ federal_organizations c ∧ is_active o = true ∧ k ∈ aliases o)
  ∧ (∀ i, get_federal_organizations c !! k = Some i →
          ∃ o, o ∈ federal_organizations c ∧ is_active o = true
               ∧ k ∈ aliases o ∧ org_id o = i).
Proof.
  pose proof (index_value_active c k) as Hv.
  split; [|exact Hv]. split.
  - intros [i Hi]. destruct (Hv i Hi) as (o & ? & ? & ? & _). eauto.
  - intros (o & Ho & Ha & Hk). unfold get_federal_organizations.
    eapply index_rows_lookup_is_Some; [|exact Hk].
    unfold fetchall. by apply list_elem_of_filter.
Qed.

(** ** What the matcher can return *)

Lemma try_prefixes_sound (ps : list string) (parent_agency : string)
  (orgs : gmap string Z) (i : Z) :
  try_prefixes ps parent_agency orgs = Some i →
  ∃ k, orgs !! k = Some i ∧ normalize_name (Some k) = k.
Proof.
  induction ps as [|p ps IH]; cbn [try_prefixes]; [done|].
  destruct (PyStr.startswith parent_agency p); [|exact IH].
  cbv zeta.
  match goal with
  | |- context [orgs !! ?k] => destruct (orgs !! k) as [j|] eqn:E
  end; [|exact IH].
  intros [= ->]. eexists. split; [exact E|].
  apply normalize_name_idem.
Qed.

Lemma match_agency_to_org_registered (parent_agency sub_agency : string)
  (orgs : gmap string Z) (i : Z) :
  match_agency_to_org parent_agency sub_agency orgs = Some i →
  ∃ k, orgs !! k = Some i ∧ normalize_name (Some k) = k.
Proof.
  unfold match_agency_to_org.
  destruct (String.eqb parent_agency _); [done|].
  destruct (String.eqb parent_agency _); [done|].
  destruct (str_truthy sub_agency).
  - destruct (orgs !! normalize_name (Some sub_agency)) as [j|] eqn:E.
    { intros [= ->]. eexists. split; [exact E|].
      apply normalize_name_idem. }
    destruct (str_truthy parent_agency); [|done].
    destruct (orgs !! normalize_name (Some parent_agency)) as [j|] eqn:E'.
    { intros [= ->]. eexists. split; [exact E'|].
      apply normalize_name_idem. }
    apply try_prefixes_sound.
  - destruct (str_truthy parent_agency); [|done].
    destruct (orgs !! normalize_name (Some parent_agency)) as [j|] eqn:E'.
    { intros [= ->]. eexists. split; [exact E'|].
      apply normalize_name_idem. }
    apply try_prefixes_sound.
Qed.

(** The matcher never invents an identifier: what it returns is registered
    in the index under a normalised key; on an empty index it returns
    [None]. *)
Theorem match_agency_to_org_sound (parent_agency sub_agency : string)
  (orgs : gmap string Z) :
  (∀ i, match_agency_to_org parent_agency sub_agency orgs = Some i →
        ∃ k, orgs !! k = Some i ∧ normalize_name (Some k) = k)
  ∧ match_agency_to_org parent_agency sub_agency ∅ = None.
Proof.
  split.
  - intros i. apply match_agency_to_org_registered.
  - destruct (match_agency_to_org parent_agency sub_agency ∅) as [i|] eqn:E;
      [|done].
    apply match_agency_to_org_registered in E as (k & Hk & _).
    by rewrite lookup_empty in Hk.
Qed.

(** ** The emitted records and the table written *)

Lemma retained_subset (rows : list (gmap string string))
  (r : gmap string string) :
  r ∈ retained rows → r ∈ rows ∧ is_skipped r = false.
Proof. apply retained_after_subset. Qed.

Lemma retained_keys_NoDup (rows : list (gmap string string)) :
  NoDup (dedup_key <$> retained rows).
Proof.
  induction rows as [|r pre IH] using rev_ind; [constructor|].
  rewrite retained_snoc. case_decide as Hr; [|by rewrite app_nil_r].
  rewrite fmap_app. apply NoDup_app. split; [done|]. split; [|apply NoDup_singleton].
  intros k Hk Hk'. apply list_elem_of_singleton in Hk'. subst k.
  apply list_elem_of_fmap in Hk as (r' & Hkey & Hr').
  apply retained_subset in Hr' as [Hin Hs].
  destruct Hr as [_ Hno]. apply Hno, Exists_exists. exists r'.
  split; [done|]. split; done.
Qed.

Lemma retained_keys_complete (rows : list (gmap string string))
  (r : gmap string string) :
  r ∈ rows → is_skipped r = false →
  dedup_key r ∈ dedup_key <$> retained rows.
Proof.
  revert r. induction rows as [|r' pre IH] using rev_ind; intros r;
    [inversion 1|].
  intros Hin Hs. rewrite retained_snoc, fmap_app, elem_of_app.
  destruct (decide (Exists (occurrence_of r) pre)) as [He|He].
  - left. apply Exists_exists in He as (x & Hx & Hxs & Hxk).
    rewrite <- Hxk. by apply IH.
  - apply elem_of_app in Hin as [Hin|Hin].
    + exfalso. apply He, Exists_exists. exists r. split; [done|]. by split.
    + apply list_elem_of_singleton in Hin. subst r'. right.
      rewrite decide_True by (by split). simpl. left.
Qed.

Lemma authorizations_keys orgs (rows : list (gmap string string)) :
  conflict_key <$> authorizations (reconciliation_pass orgs rows)
  = dedup_key <$> retained rows.
Proof.
  rewrite authorizations_reconciliation_pass, <- list_fmap_compose.
  apply list_fmap_ext. intros _ r _. apply conflict_key_authorization_of.
Qed.

Lemma emitted_keys_NoDup orgs (rows : list (gmap string string)) :
  NoDup (conflict_key <$> authorizations (reconciliation_pass orgs rows)).
Proof. rewrite authorizations_keys. apply retained_keys_NoDup. Qed.

Lemma statistics_length orgs (rows : list (gmap string string)) :
  length (authorizations (reconciliation_pass orgs rows))
  = (matched (stats (reconciliation_pass orgs rows))
     + unmatched (stats (reconciliation_pass orgs rows)))%nat.
Proof.
  rewrite authorizations_reconciliation_pass, length_fmap.
  by destruct (counters_reconciliation_pass orgs rows) as (_ & _ & -> & _).
Qed.

(** The records emitted carry pairwise distinct conflict keys, and these are
    exactly the natural keys of the rows that are not skipped. *)
Theorem emitted_keys (orgs : gmap string Z)
  (rows : list (gmap string string)) :
  let keys := conflict_key <$> authorizations (reconciliation_pass orgs rows) in
  NoDup keys
  ∧ ∀ k, k ∈ keys ↔ ∃ r, r ∈ rows ∧ is_skipped r = false ∧ dedup_key r = k.
Proof.
  intros keys. unfold keys. rewrite authorizations_keys.
  split; [apply retained_keys_NoDup|]. intros k. split.
  - intros H. apply list_elem_of_fmap in H as (r & -> & Hr).
    apply retained_subset in Hr as [? ?]. eauto.
  - intros (r & Hr & Hs & <-). by apply retained_keys_complete.
Qed.

Lemma upsert_fresh (a : authorization) (table : list authorization) :
  conflict_key a ∉ conflict_key <$> table → upsert a table = table ++ [a].
Proof.
  induction table as [|b table IH]; simpl; [done|]. intros Hn.
  rewrite not_elem_of_cons in Hn. destruct Hn as [Hne Hn].
  rewrite decide_False by congruence. by rewrite IH.
Qed.

Lemma execute_values_fresh (auths table : list authorization) :
  NoDup (conflict_key <$> (table ++ auths)) →
  execute_values table auths = table ++ auths.
Proof.
  unfold execute_values. revert table.
  induction auths as [|a auths IH]; intros table Hnd; simpl.
  - by rewrite app_nil_r.
  - rewrite upsert_fresh.
    + rewrite IH; rewrite <- app_assoc; done.
    + rewrite fmap_app in Hnd. apply NoDup_app in Hnd as (_ & Hd & _).
      intros Hin. apply (Hd _ Hin). simpl. left.
Qed.

Lemma main_returns (c : conn) (rows : list (gmap string string))
  (out : pass_state * summary) (c' : conn) :
  main c rows = (inr out, c') →
  out.1 = reconciliation_pass (get_federal_organizations c) rows
  ∧ product_authorizations c' = authorizations out.1
  ∧ federal_organizations c' = federal_organizations c.
Proof.
  unfold main.
  destruct (print_statistics _) as [e|sm]; [done|].
  intros [= <- <-]. simpl.
  rewrite execute_values_fresh; [done|]. simpl. apply emitted_keys_NoDup.
Qed.

(** When [main] returns, the table [product_authorizations] holds exactly the
    emitted records, in input order, whatever it held before: the rows it is
    given never conflict with one another, so no insert turns into an update,
    and the organizations are left as they were. *)
Theorem main_replaces_table (c : conn) (rows : list (gmap string string))
  (out : pass_state * summary) (c' : conn) :
  main c rows = (inr out, c') →
  out.1 = reconciliation_pass (get_federal_organizations c) rows
  ∧ product_authorizations c' = authorizations out.1
  ∧ length (product_authorizations c')
    = (matched (stats out.1) + unmatched (stats out.1))%nat
  ∧ federal_organizations c' = federal_organizations c.
Proof.
  intros E. destruct (main_returns _ _ _ _ E) as (Ho & Ht & Hf).
  repeat split; try done.
  rewrite Ht, Ho. apply statistics_length.
Qed.

Lemma main_replaces_table_witness :
  product_authorizations (main scenario_conn scenario_rows).2
  = authorizations
      (reconciliation_pass (get_federal_organizations scenario_conn)
         scenario_rows).
Proof.
  destruct (main scenario_conn scenario_rows) as [[e|out] c'] eqn:E.
  - vm_compute in E. discriminate E.
  - destruct (main_replaces_table _ _ _ _ E) as (Ho & Ht & _).
    simpl. by rewrite Ht, Ho.
Defined.

(** ** The counters against the records and the table of unmatched agencies *)

Lemma occurrences_incr (m : gmap string nat) (k : string) :
  occurrences (<[k := S (default 0%nat (m !! k))]> m) = S (occurrences m).
Proof.
  unfold occurrences. destruct (m !! k) as [n|] eqn:E; simpl.
  - rewrite <- (insert_delete_id m k n) at 2 by done.
    rewrite <- (insert_delete_eq m).
    rewrite !map_fold_insert_L; try (by rewrite lookup_delete_eq);
      try (intros; lia).
  - rewrite map_fold_insert_L; [lia | intros; lia | done].
Qed.

Lemma matched_records orgs (rows : list (gmap string string)) :
  let st := reconciliation_pass orgs rows in
  matched (stats st) = length (resolved_records (authorizations st))
  ∧ unmatched (stats st) = length (unresolved_records (authorizations st))
  ∧ occurrences (unmatched_agencies st) = unmatched (stats st).
Proof.
  induction rows as [|r pre IH] using rev_ind.
  { repeat split. }
  rewrite reconciliation_pass_snoc. cbv zeta in *.
  destruct IH as (Hm & Hu & Ho).
  unfold resolved_records, unresolved_records in *.
  destruct (process_row_cases orgs pre r)
    as [(_ & _ & ->)|[(_ & _ & _ & ->)|[(_ & Ht & ->)|(_ & Ht & ->)]]];
    simpl; rewrite ?filter_app, ?length_app, ?filter_cons, ?filter_nil;
    simpl; rewrite ?Ht, ?occurrences_incr;
    repeat case_decide; try congruence; simpl; repeat split; lia.
Qed.

(** The counter [matched] is the number of emitted records with a truthy
    organization reference, [unmatched] the number of the others, and the
    counts of the table of unmatched agencies add up to [unmatched]. *)
Theorem counters_against_records (orgs : gmap string Z)
  (rows : list (gmap string string)) :
  let st := reconciliation_pass orgs rows in
  matched (stats st) = length (resolved_records (authorizations st))
  ∧ unmatched (stats st) = length (unresolved_records (authorizations st))
  ∧ occurrences (unmatched_agencies st) = unmatched (stats st).
Proof. apply matched_records. Qed.

(** Every organization reference that [main] writes is the identifier of an
    active organization. *)
Theorem written_references_active (c c' : conn)
  (rows : list (gmap string string)) (out : pass_state * summary)
  (a : authorization) (i : Z) :
  main c rows = (inr out, c') →
  a ∈ product_authorizations c' →
  organization_id a = Some i →
  ∃ o, o ∈ federal_organizations c ∧ is_active o = true ∧ org_id o = i.
Proof.
  intros E Ha Hi.
  destruct (main_returns _ _ _ _ E) as (Ho & Ht & _).
  rewrite Ht, Ho, authorizations_reconciliation_pass in Ha.
  apply list_elem_of_fmap in Ha as (r & -> & _). simpl in Hi.
  apply match_agency_to_org_registered in Hi as (k & Hk & _).
  apply index_value_active in Hk as (o & ? & ? & _ & ?). eauto.
Qed.

Lemma written_references_active_witness :
  ∃ o, o ∈ federal_organizations scenario_conn ∧ is_active o = true
       ∧ org_id o = 1.
Proof.
  destruct (main scenario_conn scenario_rows) as [[e|out] c'] eqn:E.
  - vm_compute in E. discriminate E.
  - apply (written_references_active scenario_conn c' scenario_rows out
             (authorization_of (get_federal_organizations scenario_conn)
                (mk_row "F-001" "Department of Example" "")) 1 E).
    + destruct (main_returns _ _ _ _ E) as (Ho & Ht & _).
      rewrite Ht, Ho. vm_compute. left.
    + reflexivity.
Defined.

(** ** The counters only depend on the keys met *)

Lemma keys_of_retained (rows : list (gmap string string)) :
  keys_of rows = list_to_set (dedup_key <$> retained rows).
Proof.
  apply set_eq. intros k. rewrite elem_of_keys_of, elem_of_list_to_set.
  split.
  - intros (r & Hr & Hs & <-). by apply retained_keys_complete.
  - intros H. apply list_elem_of_fmap in H as (r & -> & Hr).
    apply retained_subset in Hr as [? ?]. eauto.
Qed.

Lemma size_filter_list_to_set {K} `{Countable K} (P : K → Prop)
  `{∀ x, Decision (P x)} (l : list K) :
  NoDup l →
  size (filter P (list_to_set l : gset K)) = length (filter P l).
Proof.
  intros Hnd.
  assert (E : filter P (list_to_set l : gset K) = list_to_set (filter P l)).
  { apply set_eq. intros x.
    rewrite elem_of_filter, !elem_of_list_to_set, list_elem_of_filter. done. }
  rewrite E. apply size_list_to_set. by apply NoDup_filter.
Qed.

Lemma length_filter_fmap {A B} (f : A → B) (P : B → Prop) (Q : A → Prop)
  `{∀ x, Decision (P x)} `{∀ x, Decision (Q x)} (l : list A) :
  (∀ x, P (f x) ↔ Q x) →
  length (filter P (f <$> l)) = length (filter Q l).
Proof.
  intros HPQ. induction l as [|a l IH]; [done|].
  rewrite fmap_cons, !filter_cons.
  destruct (decide (P (f a))) as [Hp|Hp], (decide (Q a)) as [Hq|Hq];
    simpl; rewrite ?IH; try done; exfalso;
    first [by apply Hp, HPQ | by apply Hq, HPQ].
Qed.


Lemma counters_by_keys orgs (rows : list (gmap string string)) :
  let s := stats (reconciliation_pass orgs rows) in
  total s = length rows
  ∧ skipped s = length (filter (λ r, is_skipped r = true) rows)
  ∧ matched s = size (filter (key_resolves orgs) (keys_of rows))
  ∧ (matched s + unmatched s)%nat = size (keys_of rows)
  ∧ (duplicates s + size (keys_of rows))%nat
    = length (filter (λ r, is_skipped r = false) rows).
Proof.
  intros s.
  destruct (counters_reconciliation_pass orgs rows) as (Ht & Hs & Hm & Hd).
  fold s in Ht, Hs, Hm, Hd.
  assert (Hsize : size (keys_of rows) = length (retained rows)).
  { rewrite keys_of_retained, size_list_to_set, length_fmap; [done|].
    apply retained_keys_NoDup. }
  rewrite Hsize. repeat split; try done.
  destruct (matched_records orgs rows) as (Hmr & _). fold s in Hmr.
  rewrite Hmr, keys_of_retained, size_filter_list_to_set
    by apply retained_keys_NoDup.
  rewrite authorizations_reconciliation_pass. unfold resolved_records.
  rewrite (length_filter_fmap dedup_key (key_resolves orgs)
             (λ r, key_resolves orgs (dedup_key r))) by done.
  apply length_filter_fmap. intros r. unfold key_resolves.
  by rewrite dedup_key_eq.
Qed.

(** The counters told by the input alone: [skipped] counts the rows with an
    empty identifier or parent agency, [matched + unmatched] is the number of
    distinct natural keys among the other rows, [matched] the number of those
    keys whose agencies the matcher resolves to a truthy identifier, and
    [duplicates] counts the remaining rows. *)
Theorem counters_told_by_keys (orgs : gmap string Z)
  (rows : list (gmap string string)) :
  let s := stats (reconciliation_pass orgs rows) in
  total s = length rows
  ∧ skipped s = length (filter (λ r, is_skipped r = true) rows)
  ∧ matched s = size (filter (key_resolves orgs) (keys_of rows))
  ∧ (matched s + unmatched s)%nat = size (keys_of rows)
  ∧ (duplicates s + size (keys_of rows))%nat
    = length (filter (λ r, is_skipped r = false) rows).
Proof. apply counters_by_keys. Qed.

Lemma keys_of_perm (rows rows' : list (gmap string string)) :
  rows ≡ₚ rows' → keys_of rows = keys_of rows'.
Proof. intros Hp. unfold keys_of. by rewrite Hp. Qed.

(** The five counters do not depend on the order of the input rows. *)
Theorem statistics_order_independent (orgs : gmap string Z)
  (rows rows' : list (gmap string string)) :
  rows ≡ₚ rows' →
  stats (reconciliation_pass orgs rows)
  = stats (reconciliation_pass orgs rows').
Proof.
  intros Hp.
  destruct (counters_by_keys orgs rows) as (Ht & Hs & Hm & Hu & Hd).
  destruct (counters_by_keys orgs rows') as (Ht' & Hs' & Hm' & Hu' & Hd').
  rewrite <- (keys_of_perm _ _ Hp) in Hm', Hu', Hd'.
  assert (Hl : length rows' = length rows) by (by rewrite Hp).
  assert (Hfs : length (filter (λ r, is_skipped r = true) rows')
                = length (filter (λ r, is_skipped r = true) rows))
    by (by rewrite Hp).
  assert (Hfn : length (filter (λ r, is_skipped r = false) rows')
                = length (filter (λ r, is_skipped r = false) rows))
    by (by rewrite Hp).
  rewrite Hl in Ht'. rewrite Hfs in Hs'. rewrite Hfn in Hd'.
  destruct (stats (reconciliation_pass orgs rows)),
           (stats (reconciliation_pass orgs rows')); simpl in *.
  f_equal; lia.
Qed.

Lemma statistics_order_independent_witness :
  stats (reconciliation_pass (get_federal_organizations scenario_conn)
           scenario_rows)
  = stats (reconciliation_pass (get_federal_organizations scenario_conn)
             (reverse scenario_rows)).
Proof.
  apply statistics_order_independent. symmetry. apply reverse_Permutation.
Defined.

(** * Properties of the helpers of the loaders *)

(** ** Characters *)

Ltac by_cases_on_char c :=
  destruct c as [[] [] [] [] [] [] [] []]; vm_compute; intros;
  solve [ reflexivity | discriminate | congruence ].

Lemma hyphen_eq (c : ascii) : Re.hyphen c = true → c = "-"%char.
Proof. by_cases_on_char c. Qed.

Lemma word_not_hyphen (c : ascii) : Re.word c = true → Re.hyphen c = false.
Proof. by_cases_on_char c. Qed.

Lemma word_not_space (c : ascii) : Re.word c = true → Re.space c = false.
Proof. by_cases_on_char c. Qed.

Lemma word_lower_char (c : ascii) : Re.word (PyStr.lower_char c) = Re.word c.
Proof. by_cases_on_char c. Qed.

Lemma hyphen_lower_char (c : ascii) :
  Re.hyphen (PyStr.lower_char c) = Re.hyphen c.
Proof. by_cases_on_char c. Qed.

Lemma hyphen_stable (c : ascii) :
  Re.hyphen c = true → PyStr.lower_char c = c.
Proof. by_cases_on_char c. Qed.

Lemma slug_char_word (c : ascii) : slug_char c = true → Re.word c = true.
Proof.
  unfold slug_char. rewrite !andb_true_iff. tauto.
Qed.

Lemma slug_char_stable (c : ascii) :
  slug_char c = true → PyStr.lower_char c = c.
Proof.
  unfold slug_char. rewrite !andb_true_iff. intros [_ H].
  by apply Ascii.eqb_eq.
Qed.

Lemma slug_char_not_underscore (c : ascii) :
  slug_char c = true → Re.underscore c = false.
Proof.
  unfold slug_char. rewrite !andb_true_iff, negb_true_iff. tauto.
Qed.

(** ** Strings of a given alphabet *)

Lemma all_chars_impl (p q : ascii → bool) (s : string) :
  (∀ c, p c = true → q c = true) →
  all_chars p s = true → all_chars q s = true.
Proof.
  intros Hpq. induction s as [|c s IH]; simpl; [done|].
  rewrite !andb_true_iff. intros [? ?]. auto.
Qed.

Lemma all_chars_keep (cls p : ascii → bool) (s : string) :
  all_chars p s = true →
  all_chars (λ c, cls c && p c) (Re.keep cls s) = true.
Proof.
  induction s as [|c s IH]; simpl; [done|].
  rewrite andb_true_iff. intros [Hc Hs].
  destruct (cls c) eqn:E; simpl; [|auto]. rewrite E, Hc. simpl. auto.
Qed.

Lemma all_chars_lower (s : string) :
  all_chars (λ c, Ascii.eqb (PyStr.lower_char c) c) (PyStr.lower s) = true.
Proof.
  induction s as [|c s IH]; simpl; [done|].
  rewrite lower_char_idem, Ascii.eqb_refl. done.
Qed.

Lemma all_chars_true (s : string) : all_chars (λ _, true) s = true.
Proof. induction s; simpl; auto. Qed.

Lemma all_chars_app (p : ascii → bool) (s t : string) :
  all_chars p (s +:+ t) = all_chars p s && all_chars p t.
Proof.
  induction s as [|c s IH]; simpl; [done|]. by rewrite IH, andb_assoc.
Qed.

(** ** From runs to slugs *)

Section runs.
Variables good ok cls : ascii → bool.
Hypothesis hyphen_in_cls : ∀ c, Re.hyphen c = true → cls c = true.
Hypothesis good_outside_cls :
  ∀ c, good c = true → cls c = false → ok c = true.

Lemma no_double_sub_runs (r : bool) (u : string) :
  all_chars good u = true →
  no_double ok r (Re.sub_runs cls r u) = true.
Proof using hyphen_in_cls good_outside_cls.
  revert r. induction u as [|c u IH]; intros r; simpl; [done|].
  rewrite andb_true_iff. intros [Hc Hu].
  destruct (cls c) eqn:E.
  - destruct r; simpl; auto.
  - simpl. destruct (Re.hyphen c) eqn:Eh.
    + apply hyphen_in_cls in Eh. congruence.
    + rewrite (good_outside_cls c Hc E). simpl. auto.
Qed.
End runs.

Lemma no_double_weaken (ok : ascii → bool) (p : bool) (s : string) :
  no_double ok true s = true → no_double ok p s = true.
Proof.
  destruct s as [|c s]; simpl; [done|].
  destruct (Re.hyphen c); [done|]. by destruct p.
Qed.

Lemma no_double_take (ok : ascii → bool) (n : nat) (p : bool) (s : string) :
  no_double ok p s = true → no_double ok p (PyStr2.take n s) = true.
Proof.
  revert p s. induction n as [|n IH]; intros p [|c s]; simpl; try done.
  destruct (Re.hyphen c); rewrite !andb_true_iff; intros [? ?]; auto.
Qed.

Lemma no_double_lstrip (ok : ascii → bool) (p : bool) (s : string) :
  no_double ok p s = true →
  no_double ok true (PyStr2.lstrip_set Re.hyphen s) = true.
Proof.
  destruct s as [|c s]; simpl; [done|].
  destruct (Re.hyphen c) eqn:E.
  - rewrite andb_true_iff. intros [_ Hs].
    destruct s as [|d s]; simpl in *; [done|].
    destruct (Re.hyphen d) eqn:Ed; [done|].
    simpl. by rewrite Ed.
  - intros H. simpl. by rewrite E.
Qed.

Lemma shaped_rstrip (ok : ascii → bool) (p : bool) (s : string) :
  no_double ok p s = true →
  PyStr2.rstrip_set Re.hyphen s = ""
  ∨ shaped_from ok p (PyStr2.rstrip_set Re.hyphen s) = true.
Proof.
  revert p. induction s as [|c s IH]; intros p; simpl; [by left|].
  destruct (Re.hyphen c) eqn:E; rewrite andb_true_iff; intros [Hc Hs].
  - destruct (IH _ Hs) as [H0|Hsh].
    + rewrite H0. by left.
    + destruct (PyStr2.rstrip_set Re.hyphen s) as [|d t] eqn:Er;
        [by left|].
      right. cbn [shaped_from]. rewrite E, Hc. exact Hsh.
  - right. destruct (IH _ Hs) as [H0|Hsh].
    + rewrite H0. simpl. by rewrite E, Hc.
    + destruct (PyStr2.rstrip_set Re.hyphen s) as [|d t] eqn:Er.
      * simpl. by rewrite E, Hc.
      * cbn [shaped_from]. rewrite E, Hc. exact Hsh.
Qed.

Lemma slug_shaped_strip (ok : ascii → bool) (p : bool) (s : string) :
  no_double ok p s = true →
  slug_shaped ok (PyStr2.strip_set Re.hyphen s) = true.
Proof.
  intros H. apply no_double_lstrip in H. unfold PyStr2.strip_set.
  destruct (shaped_rstrip _ _ _ H) as [->|Hs]; [done|].
  unfold slug_shaped. by destruct (PyStr2.rstrip_set _ _).
Qed.

Lemma slugify_good (text : string) :
  all_chars
    (λ c, (Re.word c || Re.space c || Re.hyphen c)
          && Ascii.eqb (PyStr.lower_char c) c)
    (Re.keep (λ c, Re.word c || Re.space c || Re.hyphen c)
       (PyStr.lower text)) = true.
Proof. apply all_chars_keep, all_chars_lower. Qed.

Lemma slugify_shaped (text : string) :
  slug_shaped slug_char (AgencyTools.slugify text) = true.
Proof.
  unfold AgencyTools.slugify. destruct (str_truthy text); [|done].
  cbv zeta. simpl negb. cbv iota.
  eapply slug_shaped_strip.
  eapply (no_double_sub_runs _ slug_char); [| |apply slugify_good].
  - intros c Hc. by rewrite Hc, orb_true_r.
  - intros c. rewrite andb_true_iff, !orb_false_iff, !orb_true_iff.
    intros [[[Hw|Hs]|Hh] Hst] [[Hs' Hu] Hh']; try congruence.
    unfold slug_char. by rewrite Hw, Hu, Hst.
Qed.

Lemma shaped_from_all_chars (ok : ascii → bool) (p : bool) (s : string) :
  shaped_from ok p s = true →
  all_chars (λ c, Re.hyphen c || ok c) s = true.
Proof.
  revert p. induction s as [|c s IH]; intros p; simpl; [done|].
  destruct (Re.hyphen c); simpl; rewrite andb_true_iff; intros [H1 H2].
  - eauto.
  - rewrite H1. simpl. eauto.
Qed.

Lemma slug_shaped_all_chars (ok : ascii → bool) (s : string) :
  slug_shaped ok s = true → all_chars (λ c, Re.hyphen c || ok c) s = true.
Proof.
  destruct s as [|c s]; [done|]. apply shaped_from_all_chars.
Qed.

(** The slug of any text is empty or made of words joined by single
    hyphens, the words holding only letters and digits that lowering leaves
    alone: no blank, no underscore, no punctuation, no hyphen at either end
    and no two hyphens in a row. *)
Theorem slugify_shape (text : string) :
  slug_shaped slug_char (AgencyTools.slugify text) = true
  ∧ all_chars (λ c, Re.hyphen c || slug_char c) (AgencyTools.slugify text)
    = true.
Proof.
  split; [apply slugify_shaped|].
  apply slug_shaped_all_chars, slugify_shaped.
Qed.

(** ** Slugs are fixed points of slugify *)

Lemma lower_stable (s : string) :
  all_chars (λ c, Re.hyphen c || slug_char c) s = true → PyStr.lower s = s.
Proof.
  induction s as [|c s IH]; simpl; [done|].
  rewrite andb_true_iff, orb_true_iff. intros [Hc Hs].
  rewrite IH by done. f_equal.
  destruct Hc as [Hc|Hc]; [by apply hyphen_stable|by apply slug_char_stable].
Qed.

Lemma keep_stable (s : string) :
  all_chars (λ c, Re.hyphen c || slug_char c) s = true →
  Re.keep (λ c, Re.word c || Re.space c || Re.hyphen c) s = s.
Proof.
  induction s as [|c s IH]; simpl; [done|].
  rewrite andb_true_iff, orb_true_iff. intros [Hc Hs].
  rewrite IH by done.
  destruct Hc as [Hc|Hc].
  - by rewrite Hc, orb_true_r.
  - by rewrite (slug_char_word _ Hc).
Qed.

Lemma sub_runs_stable (r p : bool) (s : string) :
  shaped_from slug_char p s = true →
  (r = true → p = true) →
  Re.sub_runs (λ c, Re.space c || Re.underscore c || Re.hyphen c) r s = s.
Proof.
  revert r p. induction s as [|c s IH]; intros r p; simpl; [done|].
  destruct (Re.hyphen c) eqn:Eh; rewrite andb_true_iff; intros [Hc Hs] Hrp.
  - rewrite orb_true_r. apply negb_true_iff in Hc. subst p.
    destruct r; [by discriminate Hrp|].
    rewrite (hyphen_eq _ Eh). f_equal. by apply (IH true true).
  - rewrite (word_not_space _ (slug_char_word _ Hc)),
      (slug_char_not_underscore _ Hc). simpl.
    f_equal. by apply (IH false false).
Qed.

Lemma lstrip_stable (ok : ascii → bool) (s : string) :
  shaped_from ok true s = true → PyStr2.lstrip_set Re.hyphen s = s.
Proof.
  destruct s as [|c s]; simpl; [done|]. by destruct (Re.hyphen c).
Qed.

Lemma rstrip_stable (ok : ascii → bool) (p : bool) (s : string) :
  shaped_from ok p s = true → PyStr2.rstrip_set Re.hyphen s = s.
Proof.
  revert p. induction s as [|c s IH]; intros p; simpl; [done|].
  destruct (Re.hyphen c) eqn:Eh; rewrite andb_true_iff; intros [Hc Hs].
  - rewrite (IH _ Hs). destruct s; [done|done].
  - rewrite (IH _ Hs). by destruct s.
Qed.

Lemma slugify_fixed (s : string) :
  slug_shaped slug_char s = true → AgencyTools.slugify s = s.
Proof.
  destruct s as [|c s]; [done|]. unfold slug_shaped. intros H.
  unfold AgencyTools.slugify. simpl str_truthy. cbv zeta. simpl negb. cbv iota.
  pose proof (shaped_from_all_chars _ _ _ H) as Ha.
  rewrite (lower_stable _ Ha), (keep_stable _ Ha).
  rewrite (sub_runs_stable false true _ H) by discriminate.
  unfold PyStr2.strip_set.
  by rewrite (lstrip_stable _ _ H), (rstrip_stable _ _ _ H).
Qed.

(** slugify leaves every slug as it is, so that it is idempotent: the slug
    of a slug is that slug. *)
Theorem slugify_idempotent (text : string) :
  AgencyTools.slugify (AgencyTools.slugify text) = AgencyTools.slugify text
  ∧ (∀ s, slug_shaped slug_char s = true → AgencyTools.slugify s = s).
Proof.
  split; [|apply slugify_fixed]. apply slugify_fixed, slugify_shaped.
Qed.

Lemma slugify_idempotent_witness :
  AgencyTools.slugify "dept-of-the-interior" = "dept-of-the-interior".
Proof.
  apply (proj2 (slugify_idempotent "")). reflexivity.
Defined.

(** ** generate_slug *)

Lemma string_app_cons (c : ascii) (s t : string) :
  String c s +:+ t = String c (s +:+ t).
Proof. reflexivity. Qed.

Lemma string_app_nil_r (s : string) : s +:+ "" = s.
Proof.
  induction s as [|c s IH]; [done|]. by rewrite string_app_cons, IH.
Qed.

Lemma string_length_app (s t : string) :
  String.length (s +:+ t) = (String.length s + String.length t)%nat.
Proof.
  induction s as [|c s IH]; [done|]. rewrite string_app_cons. simpl.
  by rewrite IH.
Qed.

Lemma length_take (n : nat) (s : string) :
  (String.length (PyStr2.take n s) ≤ n)%nat.
Proof.
  revert s. induction n as [|n IH]; intros [|c s]; simpl; try lia.
  specialize (IH s). lia.
Qed.

Lemma length_lstrip_set (chars : ascii → bool) (s : string) :
  (String.length (PyStr2.lstrip_set chars s) ≤ String.length s)%nat.
Proof.
  induction s as [|c s IH]; simpl; [lia|].
  destruct (chars c); simpl; lia.
Qed.

Lemma length_rstrip_set (chars : ascii → bool) (s : string) :
  (String.length (PyStr2.rstrip_set chars s) ≤ String.length s)%nat.
Proof.
  induction s as [|c s IH]; simpl; [lia|].
  destruct (PyStr2.rstrip_set chars s); simpl in *;
    [destruct (chars c); simpl; lia | lia].
Qed.

Lemma length_strip_set (chars : ascii → bool) (s : string) :
  (String.length (PyStr2.strip_set chars s) ≤ String.length s)%nat.
Proof.
  unfold PyStr2.strip_set.
  pose proof (length_rstrip_set chars (PyStr2.lstrip_set chars s)).
  pose proof (length_lstrip_set chars s). lia.
Qed.

Lemma all_chars_keep_class (cls : ascii → bool) (s : string) :
  all_chars cls (Re.keep cls s) = true.
Proof.
  eapply all_chars_impl; [|apply (all_chars_keep cls (λ _, true)),
                            all_chars_true].
  intros c. simpl. by rewrite andb_true_r.
Qed.

Lemma generate_slug_body_shaped (slug : string) :
  slug_shaped Re.word
    (PyStr2.strip_set Re.hyphen
       (PyStr2.take 80
          (Re.sub_runs (λ c, Re.hyphen c || Re.space c) false
             (Re.keep (λ c, Re.word c || Re.space c || Re.hyphen c) slug))))
  = true.
Proof.
  eapply slug_shaped_strip, no_double_take.
  eapply (no_double_sub_runs _ Re.word); [| |apply all_chars_keep_class].
  - intros c Hc. by rewrite Hc.
  - intros c. rewrite !orb_false_iff, !orb_true_iff.
    intros [[Hw|Hs]|Hh] [Hh' Hs']; congruence.
Qed.

(** The slug of a use case: without an agency abbreviation it is empty or
    made of words of word characters joined by single hyphens, at most 80
    characters long; with one it is that slug after the word characters of
    the lowered abbreviation and a hyphen. No slug holds a blank or a
    character that is neither a word character nor a hyphen. *)
Theorem generate_slug_shape (use_case_name agency_abbr : option string)
  (row_id : N) :
  let body := UseCases.generate_slug use_case_name None row_id in
  slug_shaped Re.word body = true
  ∧ (String.length body ≤ 80)%nat
  ∧ UseCases.generate_slug use_case_name agency_abbr row_id
    = (if opt_str_truthy agency_abbr
       then Re.keep Re.word (PyStr.lower (default "" agency_abbr))
            +:+ "-" +:+ body
       else body)
  ∧ all_chars (λ c, Re.hyphen c || Re.word c)
      (UseCases.generate_slug use_case_name agency_abbr row_id) = true.
Proof.
  intros body.
  assert (Hs : slug_shaped Re.word body = true)
    by apply generate_slug_body_shaped.
  assert (Hg : UseCases.generate_slug use_case_name agency_abbr row_id
               = (if opt_str_truthy agency_abbr
                  then Re.keep Re.word (PyStr.lower (default "" agency_abbr))
                       +:+ "-" +:+ body
                  else body)) by reflexivity.
  split; [done|]. split.
  { unfold body, UseCases.generate_slug. cbv zeta. simpl opt_str_truthy.
    cbv iota.
    etransitivity; [apply length_strip_set | apply length_take]. }
  split; [done|]. rewrite Hg.
  pose proof (slug_shaped_all_chars _ _ Hs) as Hb.
  destruct (opt_str_truthy agency_abbr); [|done].
  rewrite !all_chars_app, Hb, andb_true_r. simpl.
  eapply all_chars_impl; [|apply all_chars_keep_class].
  intros c Hc. by rewrite Hc, orb_true_r.
Qed.

(** ** The slug given to a new agency *)

Lemma candidate_succ (base : string) (i : nat) :
  candidate base (S i) = AgencyTools.numbered base (N.of_nat i + 1).
Proof. unfold candidate. f_equal. lia. Qed.

Lemma candidate_inj (base : string) (i j : nat) :
  candidate base i = candidate base j → i = j.
Proof.
  assert (Hne : ∀ k, base ≠ AgencyTools.numbered base k).
  { intros k H. unfold AgencyTools.numbered in H.
    rewrite <- (string_app_nil_r base) in H at 1.
    apply (inj (String.app base)) in H. discriminate H. }
  destruct i as [|i], j as [|j]; simpl; intros H; try done.
  - by apply Hne in H.
  - symmetry in H. by apply Hne in H.
  - unfold AgencyTools.numbered in H.
    apply (inj (String.app base)) in H.
    apply (inj (String.app "-")) in H.
    apply (inj pretty) in H. lia.
Qed.

Lemma probe_finds (base : string) (used : gset string) (n i f : nat) :
  (∀ j, (j < n)%nat → candidate base (i + j) ∈ used) →
  candidate base (i + n) ∉ used →
  AgencyTools.probe (S n + f) base (candidate base i) (N.of_nat i + 1) used
  = Some (candidate base (i + n)).
Proof.
  revert i. induction n as [|n IH]; intros i Hin Hout.
  - rewrite Nat.add_0_r in *. cbn [AgencyTools.probe Nat.add].
    by rewrite decide_False.
  - cbn [AgencyTools.probe Nat.add].
    rewrite decide_True
      by (specialize (Hin 0%nat); rewrite Nat.add_0_r in Hin; apply Hin; lia).
    rewrite <- candidate_succ.
    replace (N.of_nat i + 1 + 1)%N with (N.of_nat (S i) + 1)%N by lia.
    replace (i + S n)%nat with (S i + n)%nat in * by lia.
    apply (IH (S i)); [|done].
    intros j Hj. replace (S i + j)%nat with (i + S j)%nat by lia.
    apply Hin. lia.
Qed.

Lemma candidates_bounded (base : string) (used : gset string) (k : nat) :
  (∀ j, (j < k)%nat → candidate base j ∈ used) → (k ≤ size used)%nat.
Proof.
  intros Hin.
  assert (Hnd : NoDup (candidate base <$> seq 0 k)).
  { apply NoDup_fmap_2_strong; [|apply NoDup_seq].
    intros ???? . apply candidate_inj. }
  rewrite <- (length_seq k 0) at 1.
  rewrite <- (length_fmap (candidate base)),
    <- (size_list_to_set (C:=gset string)) by done.
  apply subseteq_size. intros x Hx.
  apply elem_of_list_to_set, list_elem_of_fmap in Hx as (j & -> & Hj).
  apply elem_of_seq in Hj. apply Hin. lia.
Qed.

Lemma first_free_candidate (base : string) (used : gset string) :
  ∃ n, (n ≤ size used)%nat ∧ (candidate base n ∉ used)
       ∧ ∀ j, (j < n)%nat → candidate base j ∈ used.
Proof.
  assert (Hsearch : ∀ k,
    (∃ n, (n < k)%nat ∧ (candidate base n ∉ used)
          ∧ ∀ j, (j < n)%nat → candidate base j ∈ used)
    ∨ (∀ j, (j < k)%nat → candidate base j ∈ used)).
  { induction k as [|k [(n & Hn & H1 & H2)|Hall]].
    - right. intros j Hj. lia.
    - left. exists n. split; [lia | done].
    - destruct (decide (candidate base k ∈ used)) as [Hk|Hk].
      + right. intros j Hj.
        destruct (decide (j = k)) as [->|]; [done | apply Hall; lia].
      + left. exists k. split; [lia | done]. }
  destruct (Hsearch (S (size used))) as [(n & Hn & H1 & H2)|Hall].
  - exists n. split; [lia | done].
  - apply candidates_bounded in Hall. lia.
Qed.

Lemma assign_slug_first_free (fuel : nat) (base_slug : string)
  (used_slugs : gset string) :
  (size used_slugs < fuel)%nat →
  ∃ slug n,
    AgencyTools.assign_slug fuel base_slug used_slugs
    = Some (slug, {[ slug ]} ∪ used_slugs)
    ∧ (slug ∉ used_slugs)
    ∧ slug = candidate base_slug n
    ∧ (n ≤ size used_slugs)%nat
    ∧ ∀ j, (j < n)%nat → candidate base_slug j ∈ used_slugs.
Proof.
  intros Hfuel.
  destruct (first_free_candidate base_slug used_slugs) as (n & Hn & Hout & Hin).
  exists (candidate base_slug n), n. repeat split; try done.
  unfold AgencyTools.assign_slug.
  replace fuel with (S n + (fuel - S n))%nat by lia.
  change base_slug with (candidate base_slug 0) at 2.
  change 1%N with (N.of_nat 0 + 1)%N.
  by rewrite (probe_finds base_slug used_slugs n 0 (fuel - S n)).
Qed.

(** With more fuel than there are used slugs the loop ends, and the slug it
    gives is not in use: it is the base slug, or the base slug followed by
    the first number from 1 on that makes it free, and it is then marked as
    used. *)
Theorem assign_slug_fresh (fuel : nat) (base_slug : string)
  (used_slugs : gset string) :
  (size used_slugs < fuel)%nat →
  ∃ slug n,
    AgencyTools.assign_slug fuel base_slug used_slugs
    = Some (slug, {[ slug ]} ∪ used_slugs)
    ∧ (slug ∉ used_slugs)
    ∧ slug = candidate base_slug n
    ∧ (n ≤ size used_slugs)%nat
    ∧ ∀ j, (j < n)%nat → candidate base_slug j ∈ used_slugs.
Proof. apply assign_slug_first_free. Qed.

Lemma assign_slug_fresh_witness :
  ∃ slug n,
    AgencyTools.assign_slug 3 "gsa" {[ "gsa"; "gsa-1" ]}
    = Some (slug, {[ slug ]} ∪ {[ "gsa"; "gsa-1" ]})
    ∧ (slug ∉ ({[ "gsa"; "gsa-1" ]} : gset string))
    ∧ slug = candidate "gsa" n
    ∧ (n ≤ size ({[ "gsa"; "gsa-1" ]} : gset string))%nat
    ∧ ∀ j, (j < n)%nat → candidate "gsa" j ∈ ({[ "gsa"; "gsa-1" ]} : gset string).
Proof.
  apply (assign_slug_fresh 3 "gsa" {[ "gsa"; "gsa-1" ]}).
  vm_compute. lia.
Defined.

(** ** The grouping loop of load_agency_ai_tools.py *)





(** ** The mappers of load_agency_ai_tools.py *)

Lemma str_truthy_lower (s : string) :
  str_truthy (PyStr.lower s) = str_truthy s.
Proof. by destruct s. Qed.

Lemma map_deployment_status_range (status : option string) :
  AgencyTools.map_deployment_status status = "all_staff"
  ∨ AgencyTools.map_deployment_status status = "pilot_or_limited"
  ∨ AgencyTools.map_deployment_status status = "no_public_internal_assistant".
Proof.
  unfold AgencyTools.map_deployment_status.
  destruct status as [s|]; [|by right; right].
  destruct (negb (str_truthy s)); [by right; right|]. cbv zeta.
  destruct (_ || _); [by left|].
  destruct (_ || _); [right; by left | right; by right].
Qed.

(** map_deployment_status always returns one of the three labels of the
    enum; each label is mapped to itself, so mapping twice is mapping once;
    and the letter case of the status does not matter. *)
Theorem map_deployment_status_enum (status : option string) :
  AgencyTools.map_deployment_status status
    ∈ ["all_staff"; "pilot_or_limited"; "no_public_internal_assistant"]
  ∧ AgencyTools.map_deployment_status
      (Some (AgencyTools.map_deployment_status status))
    = AgencyTools.map_deployment_status status
  ∧ AgencyTools.map_deployment_status (PyStr.lower <$> status)
    = AgencyTools.map_deployment_status status.
Proof.
  split; [|split].
  - destruct (map_deployment_status_range status) as [-> | [-> | ->]];
      set_solver.
  - by destruct (map_deployment_status_range status) as [-> | [-> | ->]].
  - destruct status as [s|]; [|done]. simpl.
    by rewrite str_truthy_lower, lower_idem.
Qed.

Lemma map_product_type_range (ptype : option string) :
  AgencyTools.map_product_type ptype ∈ AgencyTools.valid_types.
Proof.
  unfold AgencyTools.map_product_type.
  destruct ptype as [s|]; [|set_solver].
  destruct (negb (str_truthy s)); [set_solver|]. cbv zeta.
  case_bool_decide; [done | set_solver].
Qed.

Lemma map_product_type_valid (t : string) :
  t ∈ AgencyTools.valid_types → AgencyTools.map_product_type (Some t) = t.
Proof.
  unfold AgencyTools.valid_types.
  rewrite !elem_of_cons, elem_of_nil.
  by intros [-> | [-> | [-> | [-> | ?]]]].
Qed.

(** map_product_type always returns one of the four product types; a
    product type is mapped to itself, so mapping twice is mapping once; the
    letter case does not matter, and any spelling that gives a product type
    once lowered and its spaces replaced by underscores is recognised. *)
Theorem map_product_type_enum (ptype : option string) :
  AgencyTools.map_product_type ptype ∈ AgencyTools.valid_types
  ∧ AgencyTools.map_product_type (Some (AgencyTools.map_product_type ptype))
    = AgencyTools.map_product_type ptype
  ∧ AgencyTools.map_product_type (PyStr.lower <$> ptype)
    = AgencyTools.map_product_type ptype
  ∧ ∀ s, PyStr2.replace_char " " "_" (PyStr.lower s) ∈ AgencyTools.valid_types
         ↔ AgencyTools.map_product_type (Some s)
           = PyStr2.replace_char " " "_" (PyStr.lower s).
Proof.
  split; [apply map_product_type_range|]. split; [|split].
  - apply map_product_type_valid, map_product_type_range.
  - destruct ptype as [s|]; [|done]. simpl.
    by rewrite str_truthy_lower, lower_idem.
  - intros s. split.
    + intros H. unfold AgencyTools.map_product_type.
      destruct s as [|c s].
      { exfalso. unfold AgencyTools.valid_types in H. simpl in H.
        rewrite !elem_of_cons, elem_of_nil in H.
        by destruct H as [H | [H | [H | [H | H]]]]. }
      cbn [str_truthy negb]. cbv zeta. by rewrite bool_decide_true.
    + intros <-. apply map_product_type_range.
Qed.

Lemma map_availability_lower (s : string) :
  AgencyTools.map_availability (Some (PyStr.lower s))
  = AgencyTools.map_availability (Some s).
Proof.
  unfold AgencyTools.map_availability.
  by rewrite str_truthy_lower, lower_idem.
Qed.

Lemma map_availability_cases (s : string) :
  str_truthy s = true →
  AgencyTools.map_availability (Some s) = Some "yes"
  ∨ AgencyTools.map_availability (Some s) = Some "no"
  ∨ AgencyTools.map_availability (Some s) = Some "subset"
  ∨ AgencyTools.map_availability (Some s) = Some (PyStr.lower s).
Proof.
  intros Hs. unfold AgencyTools.map_availability. rewrite Hs.
  cbn [negb]. cbv zeta.
  destruct (bool_decide _); [by left|].
  destruct (bool_decide _); [right; by left|].
  destruct (PyStr2.contains _ _); right; right; [by left | by right].
Qed.

(** map_availability returns None exactly on None and on the empty string;
    what it returns is in lower case and is mapped to itself, so mapping
    twice is mapping once; and the letter case of its argument does not
    matter. *)
Theorem map_availability_idempotent (avail : option string) :
  (AgencyTools.map_availability avail = None
   ↔ opt_str_truthy avail = false)
  ∧ AgencyTools.map_availability (AgencyTools.map_availability avail)
    = AgencyTools.map_availability avail
  ∧ AgencyTools.map_availability (PyStr.lower <$> avail)
    = AgencyTools.map_availability avail
  ∧ ∀ s, AgencyTools.map_availability avail = Some s → PyStr.lower s = s.
Proof.
  destruct avail as [s|]; [|by repeat split].
  destruct (str_truthy s) eqn:Hs.
  2: { destruct s; [|done]. by repeat split. }
  pose proof (map_availability_cases s Hs) as Hc.
  split; [|split; [|split]].
  - unfold opt_str_truthy. rewrite Hs. split; [|done].
    intros H. rewrite H in Hc. by destruct Hc as [? | [? | [? | ?]]].
  - destruct Hc as [-> | [-> | [-> | Hc]]]; try done.
    rewrite Hc. rewrite map_availability_lower. exact Hc.
  - apply map_availability_lower.
  - intros t Ht. rewrite Ht in Hc.
    destruct Hc as [[= ->] | [[= ->] | [[= ->] | [= ->]]]]; try done.
    apply lower_idem.
Qed.

(** ** normalize_boolean *)

(** normalize_boolean returns 0 or 1; on a string neither the letter case
    nor the whitespace around it matters; and no integer is read as true,
    not even 1, which only counts as the string. *)
Theorem normalize_boolean_flag (v : UseCases.value) :
  (UseCases.normalize_boolean v = 0 ∨ UseCases.normalize_boolean v = 1)
  ∧ (∀ s, UseCases.normalize_boolean (UseCases.VStr (PyStr.lower s))
          = UseCases.normalize_boolean (UseCases.VStr s))
  ∧ (∀ s, UseCases.normalize_boolean (UseCases.VStr (PyStr.strip s))
          = UseCases.normalize_boolean (UseCases.VStr s))
  ∧ (∀ n, UseCases.normalize_boolean (UseCases.VInt n) = 0)
  ∧ UseCases.normalize_boolean (UseCases.VStr " 1 ") = 1.
Proof.
  split; [|split; [|split; [|split]]].
  - destruct v as [|[]|n|s]; simpl; auto.
    case_bool_decide; auto.
  - intros s. simpl. by rewrite lower_idem.
  - intros s. simpl. by rewrite lower_strip, strip_idem.
  - done.
  - done.
Qed.
